(** * gpt-crawler-outline: content extractor and batched writer of src/core.ts

    A shallow embedding of the two algorithmic parts of [src/core.ts]:
    the recursive extractor [extractContentRecursively] (lines 66-122) and
    the writer [write] with its closures [writeBatchToFile] and
    [addContentOrSplit] (lines 234-314).

    Conventions of the embedding.
    - A JavaScript string is a [string] whose characters are UTF-16 code
      units in the range 0..255.
    - A JavaScript value reaching the extractor is a [value]: what
      [JSON.parse] builds, plus [undefined].  Numbers are integers in the
      range where JavaScript prints them in plain decimal notation.  The
      properties of an object are listed in the order [Object.values] and
      [JSON.stringify] enumerate them, with pairwise distinct keys.
    - The mutable [Set<string>] shared by all recursive calls is a
      [gset string] threaded through the calls.
    - A thrown exception is the [Throw] result.  The limits of the engine
      (call stack depth, number of arguments of a spread call) are not
      part of the model.
    - [config.maxFileSize] is a rational number of megabytes, so that the
      product with 1024 * 1024 is exact, as it is for a double.
    - The tokenizer of the [gpt-tokenizer] package is a parameter of the
      writer; the intermediate files are the list of the records parsed
      from them, in the order [glob] returns them; a file written is the
      path and the array handed to [writeFile]. *)

From Stdlib Require Import ZArith QArith.
From stdpp Require Import gmap strings list.
From Stdlib Require Import Ascii String DecimalString DecimalZ Lqa.

Local Open Scope string_scope.
Local Open Scope list_scope.
Local Open Scope Z_scope.

(** ** JavaScript values *)

#[warnings="-register-all"]
Inductive value : Type :=
  | VUndefined
  | VNull
  | VBool (b : bool)
  | VNum (n : Z)
  | VStr (s : string)
  | VArr (items : list value)
  | VObj (props : list (string * value)).

(** Exceptions the modelled code can raise. *)
Inductive exn : Type :=
  | TypeError.

Inductive result (A : Type) : Type :=
  | Ok (a : A)
  | Throw (e : exn).
Arguments Ok {A} a.
Arguments Throw {A} e.

(** ** Strings *)

Definition code (c : ascii) : Z := Z.of_N (N_of_ascii c).

Fixpoint join (sep : string) (parts : list string) : string :=
  match parts with
  | [] => ""
  | [p] => p
  | p :: rest => p +:+ sep +:+ join sep rest
  end.

(** [Buffer.byteLength(str, "utf-8")]: a code unit below 128 takes one
    byte, one in 128..255 takes two. *)
Fixpoint getStringByteSize (str : string) : Z :=
  match str with
  | EmptyString => 0
  | String c rest => (if code c <? 128 then 1 else 2) + getStringByteSize rest
  end.

(** White space and line terminators removed by [String.prototype.trim]
    (those below 256). *)
Definition isWhiteSpace (c : ascii) : bool :=
  let n := code c in
  ((9 <=? n) && (n <=? 13)) || (n =? 32) || (n =? 160).

Fixpoint trimStart (s : string) : string :=
  match s with
  | EmptyString => EmptyString
  | String c rest => if isWhiteSpace c then trimStart rest else s
  end.

Fixpoint trimEnd (s : string) : string :=
  match s with
  | EmptyString => EmptyString
  | String c rest =>
      match trimEnd rest with
      | EmptyString => if isWhiteSpace c then EmptyString else String c EmptyString
      | rest' => String c rest'
      end
  end.

Definition trim (s : string) : string := trimEnd (trimStart s).

(** [Number.prototype.toString] on an integer. *)
Definition numberToString (n : Z) : string :=
  NilZero.string_of_int (Z.to_int n).

(** ** Property access *)

Fixpoint lookupProp (k : string) (props : list (string * value)) : value :=
  match props with
  | [] => VUndefined
  | (k', v) :: rest => if String.eqb k k' then v else lookupProp k rest
  end.

Definition hasOwn (k : string) (props : list (string * value)) : bool :=
  existsb (fun p => String.eqb k (fst p)) props.

(** [obj.k] for [k] one of [text], [href], [src]: an own property of an
    object; arrays and [Object.prototype] have no such property. *)
Definition getProp (obj : value) (k : string) : value :=
  match obj with
  | VObj props => lookupProp k props
  | _ => VUndefined
  end.

(** ToBoolean. *)
Definition truthy (v : value) : bool :=
  match v with
  | VUndefined | VNull => false
  | VBool b => b
  | VNum n => negb (n =? 0)
  | VStr s => negb (String.eqb s "")
  | VArr _ | VObj _ => true
  end.

(** [typeof v === "object"]. *)
Definition isObject (v : value) : bool :=
  match v with
  | VNull | VArr _ | VObj _ => true
  | _ => false
  end.

Definition isComposite (v : value) : bool :=
  match v with
  | VArr _ | VObj _ => true
  | _ => false
  end.

(** ** JSON.stringify *)

Definition dquoteChar : ascii := "034"%char.
Definition dquote : string := String dquoteChar EmptyString.
Definition newline : string := String "010"%char EmptyString.

Definition hexDigit (n : Z) : ascii :=
  ascii_of_N (Z.to_N (if n <? 10 then 48 + n else 87 + n)).

(** QuoteJSONString, one code unit. *)
Definition escapeChar (c : ascii) : string :=
  let n := code c in
  if n =? 8 then "\b"
  else if n =? 9 then "\t"
  else if n =? 10 then "\n"
  else if n =? 12 then "\f"
  else if n =? 13 then "\r"
  else if n =? 34 then String "\" (String dquoteChar EmptyString)
  else if n =? 92 then "\\"
  else if n <? 32 then
    "\u00" +:+ String (hexDigit (n / 16)) (String (hexDigit (n mod 16)) EmptyString)
  else String c EmptyString.

Fixpoint escapeString (s : string) : string :=
  match s with
  | EmptyString => EmptyString
  | String c rest => escapeChar c +:+ escapeString rest
  end.

Definition quoteJSONString (s : string) : string :=
  dquote +:+ escapeString s +:+ dquote.

(** SerializeJSONProperty without indentation.  [undefined] as an array
    element is written [null]; a property whose value is [undefined] is
    left out. *)
Fixpoint JSON_stringify (v : value) : string :=
  match v with
  | VUndefined | VNull => "null"
  | VBool true => "true"
  | VBool false => "false"
  | VNum n => numberToString n
  | VStr s => quoteJSONString s
  | VArr items => "[" +:+ join "," (map JSON_stringify items) +:+ "]"
  | VObj props =>
      "{" +:+
      join ","
        ((fix members (ps : list (string * value)) : list string :=
            match ps with
            | [] => []
            | (_, VUndefined) :: rest => members rest
            | (k, v) :: rest =>
                (quoteJSONString k +:+ ":" +:+ JSON_stringify v) :: members rest
            end) props)
      +:+ "}"
  end.

(** [JSON.stringify(v, null, 2)]: SerializeJSONProperty with gap of two
    spaces, at the current indentation. *)
Definition gap : string := "  ".

Fixpoint JSON_stringify_indent (indent : string) (v : value) : string :=
  let stepback := indent in
  let indent := indent +:+ gap in
  match v with
  | VUndefined | VNull => "null"
  | VBool true => "true"
  | VBool false => "false"
  | VNum n => numberToString n
  | VStr s => quoteJSONString s
  | VArr items =>
      match map (JSON_stringify_indent indent) items with
      | [] => "[]"
      | partial =>
          "[" +:+ newline +:+ indent +:+
          join ("," +:+ newline +:+ indent) partial +:+
          newline +:+ stepback +:+ "]"
      end
  | VObj props =>
      match
        (fix members (ps : list (string * value)) : list string :=
           match ps with
           | [] => []
           | (_, VUndefined) :: rest => members rest
           | (k, v) :: rest =>
               (quoteJSONString k +:+ ": " +:+ JSON_stringify_indent indent v)
                 :: members rest
           end) props
      with
      | [] => "{}"
      | partial =>
          "{" +:+ newline +:+ indent +:+
          join ("," +:+ newline +:+ indent) partial +:+
          newline +:+ stepback +:+ "}"
      end
  end.

(** ** ToString, as a template literal applies it

    An array is joined with commas, [null] and [undefined] elements giving
    the empty string.  An object takes [Object.prototype.toString] unless it
    has an own property [toString]: that property came from JSON and is not
    callable, [Object.prototype.valueOf] (or an own [valueOf], not callable
    either) returns no primitive, and OrdinaryToPrimitive throws. *)
Fixpoint toString (v : value) : result string :=
  match v with
  | VUndefined => Ok "undefined"
  | VNull => Ok "null"
  | VBool true => Ok "true"
  | VBool false => Ok "false"
  | VNum n => Ok (numberToString n)
  | VStr s => Ok s
  | VArr items =>
      (fix joinItems (l : list value) : result string :=
         match l with
         | [] => Ok ""
         | x :: rest =>
             let elem :=
               match x with
               | VUndefined | VNull => Ok ""
               | _ => toString x
               end in
             match elem with
             | Throw e => Throw e
             | Ok s =>
                 match rest with
                 | [] => Ok s
                 | _ =>
                     match joinItems rest with
                     | Throw e => Throw e
                     | Ok r => Ok (s +:+ "," +:+ r)
                     end
                 end
             end
         end) items
  | VObj props =>
      if hasOwn "toString" props then Throw TypeError
      else Ok "[object Object]"
  end.

(** ** The extractor: [extractContentRecursively] (lines 66-122) *)

#[global] Instance result_bind : MBind result :=
  fun A B (k : A → result B) (m : result A) =>
    match m with
    | Ok a => k a
    | Throw e => Throw e
    end.

#[global] Instance result_fmap : FMap result :=
  fun A B (f : A → B) (m : result A) =>
    match m with
    | Ok a => Ok (f a)
    | Throw e => Throw e
    end.

(** The array under construction and the shared set, as every step of the
    function sees them. *)
Definition acc : Type := list string * gset string.

(** Lines 84-91. *)
Definition extractText (obj : value) (st : acc) : acc :=
  let '(extracted, seen) := st in
  match getProp obj "text" with
  | VStr text =>
      if truthy (VStr text) && bool_decide (trim text ∉ seen)
      then (extracted ++ [trim text], {[trim text]} ∪ seen)
      else st
  | _ => st
  end.

(** Lines 94-101.  The label is [obj.text || "Link"] converted by the
    template literal. *)
Definition extractHref (obj : value) (st : acc) : result acc :=
  let '(extracted, seen) := st in
  match getProp obj "href" with
  | VStr href =>
      if truthy (VStr href) && bool_decide (href ∉ seen)
      then
        let text := getProp obj "text" in
        label ← toString (if truthy text then text else VStr "Link");
        Ok (extracted ++ [label +:+ ": " +:+ href], {[href]} ∪ seen)
      else Ok st
  | _ => Ok st
  end.

(** Lines 104-107. *)
Definition extractSrc (obj : value) (st : acc) : acc :=
  let '(extracted, seen) := st in
  match getProp obj "src" with
  | VStr src =>
      if truthy (VStr src) && bool_decide (src ∉ seen)
      then (extracted ++ ["Image: " +:+ src], {[src]} ∪ seen)
      else st
  | _ => st
  end.

(** Lines 84-107: the fragments of the node itself. *)
Definition ownFragments (obj : value) (st : acc) : result acc :=
  st ← extractHref obj (extractText obj st);
  Ok (extractSrc obj st).

(** [xs.forEach(x => extracted.push(...visit(x, seen)))]. *)
Definition forEach {F A : Type}
    (visit : A → gset string → result (list F * gset string)) :
    list A → list F * gset string → result (list F * gset string) :=
  fix go (xs : list A) (st : list F * gset string) :=
    match xs with
    | [] => Ok st
    | x :: rest =>
        '(out, seen') ← visit x st.2;
        go rest (st.1 ++ out, seen')
    end.

Fixpoint extractContentRecursively (obj : value) (seen : gset string)
    : result acc :=
  if negb (truthy obj) || negb (isObject obj) then Ok ([], seen)
  else
    let objKey := JSON_stringify obj in
    if bool_decide (objKey ∈ seen) then Ok ([], seen)
    else
      st ← ownFragments obj ([], {[objKey]} ∪ seen);
      st ← match obj with
           | VArr items => forEach extractContentRecursively items st
           | _ => Ok st
           end;
      match obj with
      | VArr items => forEach extractContentRecursively items st
      | VObj props =>
          forEach (λ p, extractContentRecursively p.2) props st
      | _ => Ok st
      end.

(** Lines 110-119 on a node: the elements of an array, then
    [Object.values]. *)
Definition visitChildren (obj : value) (st : acc) : result acc :=
  st ← match obj with
       | VArr items => forEach extractContentRecursively items st
       | _ => Ok st
       end;
  match obj with
  | VArr items => forEach extractContentRecursively items st
  | VObj props => forEach (λ p, extractContentRecursively p.2) props st
  | _ => Ok st
  end.

(** The call of line 145: a fresh set, the fragments returned. *)
Definition extract (obj : value) : result (list string) :=
  st ← extractContentRecursively obj ∅; Ok st.1.

(** ** The extractor with the origin of each fragment

    The same function, every fragment paired with the field it was made
    from and the value that was added to the set for it. *)

Inductive field : Type :=
  | TextField
  | HrefField
  | SrcField.

Record emission : Type := {
  origin : field;
  marked : string;
  fragment : string
}.

Definition trace : Type := list emission * gset string.

Definition extractTextTraced (obj : value) (st : trace) : trace :=
  let '(extracted, seen) := st in
  match getProp obj "text" with
  | VStr text =>
      if truthy (VStr text) && bool_decide (trim text ∉ seen)
      then (extracted ++
              [{| origin := TextField; marked := trim text;
                  fragment := trim text |}],
            {[trim text]} ∪ seen)
      else st
  | _ => st
  end.

Definition extractHrefTraced (obj : value) (st : trace) : result trace :=
  let '(extracted, seen) := st in
  match getProp obj "href" with
  | VStr href =>
      if truthy (VStr href) && bool_decide (href ∉ seen)
      then
        let text := getProp obj "text" in
        label ← toString (if truthy text then text else VStr "Link");
        Ok (extracted ++
              [{| origin := HrefField; marked := href;
                  fragment := label +:+ ": " +:+ href |}],
            {[href]} ∪ seen)
      else Ok st
  | _ => Ok st
  end.

Definition extractSrcTraced (obj : value) (st : trace) : trace :=
  let '(extracted, seen) := st in
  match getProp obj "src" with
  | VStr src =>
      if truthy (VStr src) && bool_decide (src ∉ seen)
      then (extracted ++
              [{| origin := SrcField; marked := src;
                  fragment := "Image: " +:+ src |}],
            {[src]} ∪ seen)
      else st
  | _ => st
  end.

Definition ownFragmentsTraced (obj : value) (st : trace) : result trace :=
  st ← extractHrefTraced obj (extractTextTraced obj st);
  Ok (extractSrcTraced obj st).

Fixpoint extractTraced (obj : value) (seen : gset string) : result trace :=
  if negb (truthy obj) || negb (isObject obj) then Ok ([], seen)
  else
    let objKey := JSON_stringify obj in
    if bool_decide (objKey ∈ seen) then Ok ([], seen)
    else
      st ← ownFragmentsTraced obj ([], {[objKey]} ∪ seen);
      st ← match obj with
           | VArr items => forEach extractTraced items st
           | _ => Ok st
           end;
      match obj with
      | VArr items => forEach extractTraced items st
      | VObj props => forEach (λ p, extractTraced p.2) props st
      | _ => Ok st
      end.

Definition visitChildrenTraced (obj : value) (st : trace) : result trace :=
  st ← match obj with
       | VArr items => forEach extractTraced items st
       | _ => Ok st
       end;
  match obj with
  | VArr items => forEach extractTraced items st
  | VObj props => forEach (λ p, extractTraced p.2) props st
  | _ => Ok st
  end.

(** Forgetting the origins. *)
Definition fragments (st : trace) : acc := (map fragment st.1, st.2).

(** The values a trace added to the set, in order. *)
Definition markedValues (emitted : list emission) : list string :=
  map marked emitted.

(** How a fragment is made from the value marked for it. *)
Definition shaped (e : emission) : Prop :=
  match origin e with
  | TextField => fragment e = marked e
  | HrefField => ∃ label, fragment e = label +:+ ": " +:+ marked e
  | SrcField => fragment e = "Image: " +:+ marked e
  end.

(** A trace is fresh between two states of the set when the set only
    grew, no value was marked twice, every value marked was absent before
    and is present after, and every fragment is made from its value. *)
Definition fresh (before : gset string) (emitted : list emission)
    (after : gset string) : Prop :=
  before ⊆ after ∧
  NoDup (markedValues emitted) ∧
  (∀ v, v ∈ markedValues emitted → (v ∉ before) ∧ v ∈ after) ∧
  Forall shaped emitted.

(** [visit] marks fresh values on every element of [xs]. *)
Definition visitsFresh {A : Type}
    (visit : A → gset string → result trace) (xs : list A) : Prop :=
  Forall (λ x, ∀ seen emitted seen',
            visit x seen = Ok (emitted, seen') → fresh seen emitted seen') xs.

(** No property named [toString] anywhere in a value. *)
Fixpoint noOwnToString (v : value) : bool :=
  match v with
  | VArr items => forallb noOwnToString items
  | VObj props =>
      negb (hasOwn "toString" props) &&
      forallb (λ p, noOwnToString p.2) props
  | _ => true
  end.

(** ** The writer: [write] (lines 234-314) *)

(** The fields of [Config] that [write] reads.  [maxFileSize] is a number
    of megabytes, [None] when the field is absent. *)
Record Config : Type := {
  outputFileName : string;
  maxFileSize : option Q;
  maxTokens : option Z
}.

(** One [writeFile] call: the path and the array that was serialized. *)
Record OutputFile : Type := {
  path : string;
  items : list value
}.

(** The text of an output file, line 259. *)
Definition fileText (f : OutputFile) : string :=
  JSON_stringify_indent "" (VArr (items f)).

(** The variables [write] closes over, and the files written so far,
    oldest first. *)
Record WriterState : Type := {
  nextFileNameString : string;
  currentResults : list value;
  currentSize : Z;
  fileCounter : Z;
  estimatedTokens : Z;
  written : list OutputFile
}.

(** A numeric limit, [None] standing for [Infinity]. *)
Definition limit : Type := option Q.

(** Lines 245-247. *)
Definition maxBytes (config : Config) : limit :=
  match maxFileSize config with
  | Some mb => if Qeq_bool mb 0 then None else Some (mb * 1024 * 1024)%Q
  | None => None
  end.

(** [n > l] for an integer [n]. *)
Definition exceeds (n : Z) (l : limit) : bool :=
  match l with
  | Some b => negb (Qle_bool (inject_Z n) b)
  | None => false
  end.

(** [str.replace(/\.json$/, "")]. *)
Fixpoint stripJsonSuffix (str : string) : string :=
  match str with
  | EmptyString => EmptyString
  | String c rest =>
      if String.eqb str ".json" then EmptyString
      else String c (stripJsonSuffix rest)
  end.

(** Lines 252-253, for a value of [fileCounter]. *)
Definition fileName (config : Config) (counter : Z) : string :=
  stripJsonSuffix (outputFileName config) +:+ "-" +:+
  numberToString counter +:+ ".json".

Definition nextFileName (config : Config) (st : WriterState) : string :=
  fileName config (fileCounter st).

(** Lines 255-267. *)
Definition writeBatchToFile (config : Config) (st : WriterState)
    : WriterState :=
  let name := nextFileName config st in
  {| nextFileNameString := name;
     currentResults := [];
     currentSize := 0;
     fileCounter := fileCounter st + 1;
     estimatedTokens := estimatedTokens st;
     written := written st ++ [{| path := name; items := currentResults st |}] |}.

Definition push (data : value) (st : WriterState) : WriterState :=
  {| nextFileNameString := nextFileNameString st;
     currentResults := currentResults st ++ [data];
     currentSize := currentSize st;
     fileCounter := fileCounter st;
     estimatedTokens := estimatedTokens st;
     written := written st |}.

Definition setEstimatedTokens (n : Z) (st : WriterState) : WriterState :=
  {| nextFileNameString := nextFileNameString st;
     currentResults := currentResults st;
     currentSize := currentSize st;
     fileCounter := fileCounter st;
     estimatedTokens := n;
     written := written st |}.

Definition setCurrentSize (n : Z) (st : WriterState) : WriterState :=
  {| nextFileNameString := nextFileNameString st;
     currentResults := currentResults st;
     currentSize := n;
     fileCounter := fileCounter st;
     estimatedTokens := estimatedTokens st;
     written := written st |}.

Section Writer.

(** The tokenizer of the [gpt-tokenizer] package: the number of tokens
    its encoder yields for a string. *)
Variable countTokens : string → Z.

(** [isWithinTokenLimit(input, tokenLimit)] of that package: it adds up
    the tokens as the encoder yields them and returns [false] as soon as
    the count is above the limit, the count otherwise.  [None] is
    [false]; the limit [None] is [Infinity]. *)
Definition isWithinTokenLimit (input : string) (tokenLimit : option Z)
    : option Z :=
  let count := countTokens input in
  match tokenLimit with
  | Some t => if (0 <? count) && (t <? count) then None else Some count
  | None => Some count
  end.

(** [config.maxTokens || Infinity], line 277. *)
Definition tokenLimit (config : Config) : option Z :=
  match maxTokens config with
  | Some t => if t =? 0 then None else Some t
  | None => None
  end.

(** [estimatedTokens + tokenCount > config.maxTokens!], line 281: a
    comparison with [undefined] is false. *)
Definition overTokens (config : Config) (total : Z) : bool :=
  match maxTokens config with
  | Some t => t <? total
  | None => false
  end.

(** Lines 280-293. *)
Definition tokenPhase (config : Config) (data : value) (st : WriterState)
    : WriterState :=
  match isWithinTokenLimit (JSON_stringify data) (tokenLimit config) with
  | Some tokenCount =>
      if overTokens config (estimatedTokens st + tokenCount) then
        let st :=
          if (0 <? List.length (currentResults st))%nat
          then writeBatchToFile config st else st in
        push data (setEstimatedTokens (tokenCount / 2) st)
      else
        setEstimatedTokens (estimatedTokens st + tokenCount) (push data st)
  | None => st
  end.

(** Lines 295-298. *)
Definition bytePhase (config : Config) (data : value) (st : WriterState)
    : WriterState :=
  let st :=
    setCurrentSize
      (currentSize st + getStringByteSize (JSON_stringify data)) st in
  if exceeds (currentSize st) (maxBytes config)
  then writeBatchToFile config st else st.

(** Lines 271-299. *)
Definition addContentOrSplit (config : Config) (data : value)
    (st : WriterState) : WriterState :=
  bytePhase config data (tokenPhase config data st).

(** Lines 235, 242-244, 269. *)
Definition initialState : WriterState :=
  {| nextFileNameString := "";
     currentResults := [];
     currentSize := 0;
     fileCounter := 1;
     estimatedTokens := 0;
     written := [] |}.

(** Lines 302-311 on the records parsed from the intermediate files, in
    the order [glob] lists them. *)
Definition run (config : Config) (records : list value) : WriterState :=
  let st :=
    fold_left (fun st data => addContentOrSplit config data st)
      records initialState in
  if (0 <? List.length (currentResults st))%nat
  then writeBatchToFile config st else st.

(** [write] returns [nextFileNameString], line 313. *)
Definition write (config : Config) (records : list value) : string :=
  nextFileNameString (run config records).

End Writer.

(** ** Example data *)

(** A tokenizer for the examples: one token per UTF-8 byte, which is what
    a byte-pair encoder yields before it merges anything. *)
Definition oneTokenPerByte (s : string) : Z := getStringByteSize s.

(** A record as [pushData] stores it (lines 148-152). *)
Definition pageRecord (title url text : string) : value :=
  VObj [("title", VStr title); ("url", VStr url); ("text", VStr text)].

Fixpoint repeatChar (c : ascii) (n : nat) : string :=
  match n with
  | O => EmptyString
  | S n' => String c (repeatChar c n')
  end.

(** The object of the scenario: a text, a link and an image. *)
Definition linkedImage : value :=
  VObj [("text", VStr "Hi"); ("href", VStr "https://x.test");
        ("src", VStr "https://x.test/img.png")].

(** The set after a pass over [linkedImage]. *)
Definition seenAfterLinkedImage : gset string :=
  match extractContentRecursively linkedImage ∅ with
  | Ok st => st.2
  | Throw _ => ∅
  end.

(** Two sibling nodes that differ in their text: the text of the first is
    the serialization of the second. *)
Definition greeting : value := VObj [("text", VStr "Hello")].
Definition quotedGreeting : value :=
  VObj [("text", VStr (JSON_stringify greeting))].

(** A record of 34 bytes, and configurations around it. *)
Definition smallRecord : value := pageRecord "T" "U" "X".

Definition limits (megabytes : option Q) (tokens : option Z) : Config :=
  {| outputFileName := "output.json";
     maxFileSize := megabytes;
     maxTokens := tokens |}.

(** A writer state in the middle of a run: one record in the batch, thirty
    tokens estimated. *)
Definition midRun : WriterState :=
  {| nextFileNameString := "";
     currentResults := [pageRecord "A" "B" "C"];
     currentSize := 34;
     fileCounter := 1;
     estimatedTokens := 30;
     written := [] |}.

(** A record of 100KB (102400 bytes serialized) with the given title. *)
Definition hundredKB (title : string) : value :=
  pageRecord title "" (repeatChar "a" (Z.to_nat 102368)).

Definition fiveRecords : list value :=
  [hundredKB "1"; hundredKB "2"; hundredKB "3"; hundredKB "4"; hundredKB "5"].

(** A record of one mebibyte (1048576 bytes serialized) with the given
    one-character title. *)
Definition mebibyte (title : string) : value :=
  pageRecord title "" (repeatChar "a" (Z.to_nat 1048544)).

Definition fourRecords : list value :=
  [pageRecord "T1" "U1" "X1"; pageRecord "T2" "U2" "X2";
   pageRecord "T3" "U3" "X3"; pageRecord "T4" "U4" "X4"].

(** The bytes [addContentOrSplit] counts for a record, and for a list of
    records. *)
Definition recordBytes (data : value) : Z :=
  getStringByteSize (JSON_stringify data).

Definition batchBytes (batch : list value) : Z :=
  fold_right (fun data n => recordBytes data + n) 0 batch.

(** The records a writer state holds: those of the files written, file
    after file, then those of the current batch. *)
Definition held (st : WriterState) : list value :=
  List.concat (map items (written st)) ++ currentResults st.

(** A file is within the byte bound [B] when the serialized sizes of its
    records add up to at most [B] plus the serialized size of one of the
    records processed. *)
Definition withinBound (B : Q) (processed : list value) (f : OutputFile)
    : Prop :=
  ∃ r, r ∈ processed ∧
       (inject_Z (batchBytes (items f)) <= B + inject_Z (recordBytes r))%Q.

(** What holds of the writer state between two calls of
    [addContentOrSplit]. *)
Record betweenCalls (B : Q) (processed : list value) (st : WriterState)
    : Prop := {
  batch_counted : batchBytes (currentResults st) ≤ currentSize st;
  size_below : (inject_Z (currentSize st) <= B)%Q;
  batch_processed : Forall (λ r, r ∈ processed) (currentResults st);
  files_bounded : Forall (withinBound B processed) (written st)
}.

(** The tokens of a batch, each record counted by itself. *)
Definition batchTokens (countTokens : string → Z) (batch : list value) : Z :=
  fold_right (λ data n, countTokens (JSON_stringify data) + n) 0 batch.

(** What the file counter, the paths written and the last path named keep
    between two steps of [write]: the counter is one more than the number
    of files, the file at position [i] is named with [i + 1], and
    [nextFileNameString] is the path of the last file, or empty. *)
Record journal (config : Config) (st : WriterState) : Prop := {
  counter_next : fileCounter st = Z.of_nat (List.length (written st)) + 1;
  paths_numbered :
    ∀ i f, written st !! i = Some f →
           path f = fileName config (Z.of_nat i + 1);
  last_named :
    nextFileNameString st = from_option path "" (last (written st))
}.

(** Between two calls, under a token ceiling [T]: the estimate is within
    the ceiling, the tokens of the batch are at most the estimate plus half
    the ceiling (rounded up), and the tokens of every file are at most the
    ceiling plus half the ceiling. *)
Definition tokensWithin (countTokens : string → Z) (T : Z) (st : WriterState)
    : Prop :=
  (0 ≤ estimatedTokens st ≤ T) ∧
  batchTokens countTokens (currentResults st) ≤
    estimatedTokens st + (T + 1) / 2 ∧
  Forall (λ f, batchTokens countTokens (items f) ≤ T + (T + 1) / 2)
    (written st).

(** A file is full when its records exceed the ceiling. *)
Definition full (l : limit) (f : OutputFile) : Prop :=
  exceeds (batchBytes (items f)) l = true.

(** Without its last record a file is within the ceiling. *)
Definition closedByLast (l : limit) (f : OutputFile) : Prop :=
  ∃ init r, items f = init ++ [r] ∧ exceeds (batchBytes init) l = false.

(** Between two calls, without a token limit: the byte counter is the
    size of the batch and within the ceiling, and every file written was
    closed by the record that took it over the ceiling. *)
Definition cutGreedily (l : limit) (st : WriterState) : Prop :=
  currentSize st = batchBytes (currentResults st) ∧
  exceeds (currentSize st) l = false ∧
  Forall (λ f, full l f ∧ closedByLast l f) (written st).

(** Put [pre] before the fragments of a result. *)
Definition after (pre : list string) (st : acc) : acc := (pre ++ st.1, st.2).

(** The objects in a value. *)
Fixpoint objects (v : value) : nat :=
  match v with
  | VArr items => list_sum (map objects items)
  | VObj props => S (list_sum (map (λ p, objects p.2) props))
  | _ => 0
  end.

(** The members SerializeJSONObject joins. *)
Fixpoint objectMembers (props : list (string * value)) : list string :=
  match props with
  | [] => []
  | (_, VUndefined) :: rest => objectMembers rest
  | (k, v) :: rest =>
      (quoteJSONString k +:+ ":" +:+ JSON_stringify v) :: objectMembers rest
  end.

(** ** The response handler (lines 125-160) *)

(** [str.includes(sub)]. *)
Fixpoint includes (str sub : string) : bool :=
  String.prefix sub str ||
  match str with
  | EmptyString => false
  | String _ rest => includes rest sub
  end.

(** [v.k] for [k] one of [data], [document], [title]: reading a property
    of [null] or [undefined] throws; a primitive, an array and
    [Object.prototype] have no property of these names. *)
Definition member (v : value) (k : string) : result value :=
  match v with
  | VUndefined | VNull => Throw TypeError
  | _ => Ok (getProp v k)
  end.

(** [v || "default"]. *)
Definition orDefault (v : value) (default : string) : value :=
  if truthy v then v else VStr default.

Definition stringOrDefault (s default : string) : string :=
  if String.eqb s "" then default else s.

(** The separator of line 145. *)
Definition blankLine : string := newline +:+ newline.

(** Lines 128-152 once the body is parsed: [None] is the early return of
    line 139, [Some] the record handed to [pushData]; [loadedUrl] is
    [request.loadedUrl], [None] when it is undefined. *)
Definition harvest (jsonResponse : value) (loadedUrl : option string)
    : result (option value) :=
  data ← member jsonResponse "data";
  if negb (truthy data) then Ok None
  else
    documentData ← member data "document";
    if negb (truthy documentData) then Ok None
    else
      extracted ← extract documentData;
      let extractedText := join blankLine extracted in
      title ← member documentData "title";
      Ok (Some
            (VObj [("title", orDefault title "Untitled");
                   ("url",
                    VStr (stringOrDefault (default "" loadedUrl)
                            "No URL available"));
                   ("text",
                    VStr (stringOrDefault extractedText
                            "No content available"))])).

(** What the handler did with a response. *)
Inductive handled : Type :=
  | Ignored
  | Skipped
  | Pushed (record : value)
  | BodyNotJson
  | Caught (e : exn).

(** Lines 125-160.  [body] is what [response.json()] resolves to, [None]
    when it rejects; every exception ends in the [catch] of line 153. *)
Definition onResponse (url : string) (body : option value)
    (loadedUrl : option string) : handled :=
  if includes url "documents.info" then
    match body with
    | None => BodyNotJson
    | Some jsonResponse =>
        match harvest jsonResponse loadedUrl with
        | Ok None => Skipped
        | Ok (Some record) => Pushed record
        | Throw e => Caught e
        end
    end
  else Ignored.

(** ** The seed URL (lines 217-230) *)

(** Line terminators, which [.] does not match (those below 256). *)
Definition isLineTerminator (c : ascii) : bool :=
  (code c =? 10) || (code c =? 13).

Fixpoint singleLine (str : string) : bool :=
  match str with
  | EmptyString => true
  | String c rest => negb (isLineTerminator c) && singleLine rest
  end.

(** The rest of [str] when [p] starts it. *)
Fixpoint afterPrefix (p str : string) : option string :=
  match p, str with
  | EmptyString, _ => Some str
  | String a p', String b str' =>
      if Ascii.eqb a b then afterPrefix p' str' else None
  | String _ _, EmptyString => None
  end.

(** [.*\.xml$] matched from the start of [str]. *)
Fixpoint restThenXml (str : string) : bool :=
  String.eqb str ".xml" ||
  match str with
  | EmptyString => false
  | String c rest => negb (isLineTerminator c) && restThenXml rest
  end.

(** [/sitemap.*\.xml$/.test(url)], line 217. *)
Fixpoint isUrlASitemap (url : string) : bool :=
  match afterPrefix "sitemap" url with
  | Some rest => restThenXml rest
  | None => false
  end ||
  match url with
  | EmptyString => false
  | String _ rest => isUrlASitemap rest
  end.

(** The requests the crawl starts from, lines 219-230:
    [downloadListOfUrls] is the sitemap loader of the crawling engine. *)
Definition seedRequests (downloadListOfUrls : string → list string)
    (url : string) : list string :=
  if isUrlASitemap url then downloadListOfUrls url else [url].

(** ** More example data *)

(** The set after a pass over [obj] from the empty set. *)
Definition seenAfter (obj : value) : gset string :=
  match extractContentRecursively obj ∅ with
  | Ok st => st.2
  | Throw _ => ∅
  end.

(** A node whose text is white space only. *)
Definition blankText : value := VObj [("text", VStr "   ")].

(** A body of the documents API, the URL it is served from and the URL of
    the page. *)
Definition documentBody : value :=
  VObj [("data",
         VObj [("document",
                VObj [("title", VStr "Guide"); ("text", VStr "Hi");
                      ("href", VStr "https://x.test");
                      ("src", VStr "https://x.test/img.png")])])].

Definition documentsApi : string := "https://x.test/api/documents.info".
Definition loadedPage : string := "https://x.test/doc/guide".

(** The record of a [Pushed] outcome. *)
Definition recordOf (h : handled) : value :=
  match h with
  | Pushed record => record
  | _ => VUndefined
  end.

(** Induction on a value, with the hypothesis for every element of an array
    and every property value of an object. *)
Section ValueInduction.

Variable P : value → Prop.
Hypothesis atom : ∀ v, isComposite v = false → P v.
Hypothesis array : ∀ items, Forall P items → P (VArr items).
Hypothesis object : ∀ props, Forall (λ p, P p.2) props → P (VObj props).

Fixpoint value_nested_ind (v : value) : P v :=
  match v with
  | VUndefined => atom VUndefined eq_refl
  | VNull => atom VNull eq_refl
  | VBool b => atom (VBool b) eq_refl
  | VNum n => atom (VNum n) eq_refl
  | VStr s => atom (VStr s) eq_refl
  | VArr items =>
      array items
        ((fix elements (l : list value) : Forall P l :=
            match l with
            | [] => @List.Forall_nil _ P
            | x :: rest =>
                @List.Forall_cons _ P x rest (value_nested_ind x) (elements rest)
            end) items)
  | VObj props =>
      object props
        ((fix members (l : list (string * value))
            : Forall (λ p, P p.2) l :=
            match l with
            | [] => @List.Forall_nil _ _
            | p :: rest =>
                @List.Forall_cons _ (λ p, P p.2) p rest
                  (value_nested_ind p.2) (members rest)
            end) props)
  end.

End ValueInduction.

(** * Properties of the writer *)

Section WriterProperties.

Variable countTokens : string → Z.
Variable config : Config.

Local Abbreviation tokenCountOf data :=
  (isWithinTokenLimit countTokens (JSON_stringify data) (tokenLimit config)).

Lemma bytePhase_estimatedTokens data st :
  estimatedTokens (bytePhase config data st) = estimatedTokens st.
Proof. unfold bytePhase. by case (exceeds _ _). Qed.

Lemma tokenPhase_estimatedTokens data st :
  estimatedTokens (tokenPhase countTokens config data st) =
    match tokenCountOf data with
    | Some tokenCount =>
        if overTokens config (estimatedTokens st + tokenCount)
        then tokenCount / 2
        else estimatedTokens st + tokenCount
    | None => estimatedTokens st
    end.
Proof.
  unfold tokenPhase. destruct (tokenCountOf data) as [tokenCount|]; [|done].
  by destruct (overTokens _ _).
Qed.

(** C3.  A flush ([writeBatchToFile]) empties the record list and zeroes
    the byte counter and leaves the token estimate as it was; so does the
    byte check of [addContentOrSplit], whether it flushes or not.  Over a
    whole call the estimate becomes half the record's count (rounded
    down) on a token overflow, grows by the count otherwise, and stays
    put when the count is not a number. *)
Theorem flush_keeps_token_estimate data st :
  (currentResults (writeBatchToFile config st) = [] ∧
   currentSize (writeBatchToFile config st) = 0 ∧
   estimatedTokens (writeBatchToFile config st) = estimatedTokens st) ∧
  estimatedTokens (bytePhase config data st) = estimatedTokens st ∧
  estimatedTokens (addContentOrSplit countTokens config data st) =
    match tokenCountOf data with
    | Some tokenCount =>
        if overTokens config (estimatedTokens st + tokenCount)
        then tokenCount / 2
        else estimatedTokens st + tokenCount
    | None => estimatedTokens st
    end.
Proof.
  split; [done|]. split; [apply bytePhase_estimatedTokens|].
  unfold addContentOrSplit.
  by rewrite bytePhase_estimatedTokens, tokenPhase_estimatedTokens.
Qed.

(** C4.  For a record with a numeric token count: when the estimate plus
    the count is above the ceiling, the batch is written to a file only if
    it holds a record, the estimate becomes the floor of half the count
    and the record is the one record of the new batch; otherwise the
    record is appended and the count added to the estimate. *)
Theorem token_overflow_splits data st tokenCount :
  tokenCountOf data = Some tokenCount →
  let st' := tokenPhase countTokens config data st in
  (overTokens config (estimatedTokens st + tokenCount) = true →
     currentResults st' = [data] ∧
     estimatedTokens st' = tokenCount / 2 ∧
     (currentResults st = [] →
        written st' = written st ∧ fileCounter st' = fileCounter st) ∧
     (currentResults st ≠ [] →
        written st' =
          written st ++
            [{| path := nextFileName config st;
                items := currentResults st |}] ∧
        fileCounter st' = fileCounter st + 1)) ∧
  (overTokens config (estimatedTokens st + tokenCount) = false →
     currentResults st' = currentResults st ++ [data] ∧
     estimatedTokens st' = estimatedTokens st + tokenCount ∧
     written st' = written st ∧ fileCounter st' = fileCounter st).
Proof.
  intros Hcount st'. subst st'. unfold tokenPhase. rewrite Hcount.
  split; intros Hover; rewrite Hover; [|done].
  destruct (currentResults st) as [|r batch] eqn:Hbatch; simpl.
  - rewrite Hbatch. repeat split; done.
  - repeat split; try done. by rewrite Hbatch.
Qed.

(** ** Records without a numeric token count *)

Lemma held_writeBatchToFile st : held (writeBatchToFile config st) = held st.
Proof.
  unfold held. simpl. rewrite map_app, concat_app. simpl.
  by rewrite !app_nil_r.
Qed.

Lemma held_tokenPhase data st :
  held (tokenPhase countTokens config data st) =
    held st ++ match tokenCountOf data with Some _ => [data] | None => [] end.
Proof.
  unfold tokenPhase. destruct (tokenCountOf data) as [tokenCount|].
  - destruct (overTokens _ _).
    + destruct (0 <? _)%nat.
      * rewrite <- (held_writeBatchToFile st). unfold held. simpl.
        by rewrite app_nil_r.
      * unfold held. simpl. by rewrite app_assoc.
    + unfold held. simpl. by rewrite app_assoc.
  - by rewrite app_nil_r.
Qed.

Lemma held_bytePhase data st : held (bytePhase config data st) = held st.
Proof.
  unfold bytePhase. destruct (exceeds _ _); [|done].
  by rewrite held_writeBatchToFile.
Qed.

Lemma held_addContentOrSplit data st :
  held (addContentOrSplit countTokens config data st) =
    held st ++ match tokenCountOf data with Some _ => [data] | None => [] end.
Proof.
  unfold addContentOrSplit. by rewrite held_bytePhase, held_tokenPhase.
Qed.

Lemma held_fold records st :
  held (fold_left (λ st data, addContentOrSplit countTokens config data st)
          records st) =
    held st ++ filter (λ data, is_Some (tokenCountOf data)) records.
Proof.
  revert st. induction records as [|data records IH]; intros st; simpl.
  - by rewrite app_nil_r.
  - rewrite IH, held_addContentOrSplit, <- app_assoc. f_equal.
    destruct (tokenCountOf data) as [tokenCount|] eqn:Hcount.
    + rewrite filter_cons_True; [done|]. by rewrite Hcount.
    + rewrite filter_cons_False; [done|]. rewrite Hcount. by intros [? ?].
Qed.

Lemma run_currentResults records :
  currentResults (run countTokens config records) = [].
Proof.
  unfold run. destruct (0 <? _)%nat eqn:Hlen; [done|].
  apply Nat.ltb_ge in Hlen. destruct (currentResults _); [done|].
  simpl in Hlen. lia.
Qed.

(** C1, as the code has it.  A record for which the token counter returns
    the sentinel is not appended: the records held (in the files written and
    in the batch) are the same before and after the call.  The output files
    of a run hold, read one after the other, exactly the input records that
    have a numeric token count, in input order. *)
Theorem sentinel_record_not_written data st records :
  tokenCountOf data = None →
  currentResults (tokenPhase countTokens config data st) = currentResults st ∧
  held (addContentOrSplit countTokens config data st) = held st ∧
  List.concat (map items (written (run countTokens config records))) =
    filter (λ data, is_Some (tokenCountOf data)) records.
Proof.
  intros Hcount. split; [|split].
  - unfold tokenPhase. by rewrite Hcount.
  - by rewrite held_addContentOrSplit, Hcount, app_nil_r.
  - pose proof (run_currentResults records) as Hempty.
    assert (held (run countTokens config records) =
            filter (λ data, is_Some (tokenCountOf data)) records) as Hheld.
    { unfold run. destruct (0 <? _)%nat.
      - by rewrite held_writeBatchToFile, held_fold.
      - by rewrite held_fold. }
    unfold held in Hheld. by rewrite Hempty, app_nil_r in Hheld.
Qed.

Lemma sentinel_step data st :
  tokenCountOf data = None →
  addContentOrSplit countTokens config data st = bytePhase config data st.
Proof.
  intros Hcount. unfold addContentOrSplit, tokenPhase. by rewrite Hcount.
Qed.

(** A run of records that all get the sentinel, from an empty batch: the
    batch stays empty and every file written holds no record; as long as no
    file is written the byte counter adds up all the records and is within
    the ceiling after each of them. *)
Lemma all_sentinel_fold records st :
  Forall (λ data, tokenCountOf data = None) records →
  currentResults st = [] →
  let st' :=
    fold_left (λ st data, addContentOrSplit countTokens config data st)
      records st in
  currentResults st' = [] ∧
  ∃ files,
    written st' = written st ++ files ∧
    Forall (λ f, items f = []) files ∧
    (files = [] →
       currentSize st' = currentSize st + batchBytes records ∧
       (records ≠ [] →
          exceeds (currentSize st') (maxBytes config) = false)).
Proof.
  intros Hrecords. revert st.
  induction Hrecords as [|data records Hdata _ IH]; intros st Hempty.
  - cbn [fold_left]. split; [done|]. exists []. rewrite app_nil_r.
    split; [done|]. split; [done|]. intros _. cbn [batchBytes fold_right].
    split; [lia|done].
  - cbn [fold_left]. rewrite sentinel_step by done. unfold bytePhase.
    cbn [currentSize setCurrentSize]. fold (recordBytes data).
    destruct (exceeds (currentSize st + recordBytes data) (maxBytes config))
      eqn:Hover.
    + destruct (IH (writeBatchToFile config
                      (setCurrentSize (currentSize st + recordBytes data) st))
                  eq_refl) as (Hbatch & files & Hwritten & Hfiles & _).
      split; [done|].
      exists ({| path := nextFileName config st; items := [] |} :: files).
      split; [|split].
      * rewrite Hwritten. cbn [written writeBatchToFile setCurrentSize
          currentResults]. rewrite Hempty, <- app_assoc. done.
      * by apply Forall_cons_2.
      * done.
    + destruct (IH (setCurrentSize (currentSize st + recordBytes data) st)
                  Hempty) as (Hbatch & files & Hwritten & Hfiles & Hsize).
      split; [done|]. exists files. split; [done|]. split; [done|].
      intros Hnone. destruct (Hsize Hnone) as [Hsum Hwithin].
      cbn [currentSize setCurrentSize] in Hsum.
      split; [cbn [batchBytes fold_right]; fold (batchBytes records); lia|].
      intros _. destruct records as [|next records]; [|by apply Hwithin].
      by cbn [fold_left currentSize setCurrentSize].
Qed.

(** C10.  When the token counter returns the sentinel the record is not
    appended, yet its byte length is added to the byte counter.  When that
    takes the counter over the ceiling while the batch is empty, a file
    holding the empty array is written and the file counter goes up; a run
    on one such record writes exactly that file.  In a run where every
    record gets the sentinel and the bytes of all the records together
    exceed the ceiling, files are written and each holds exactly the empty
    array. *)
Theorem sentinel_bytes_flush_empty_batch data st :
  tokenCountOf data = None →
  let st' := addContentOrSplit countTokens config data st in
  tokenPhase countTokens config data st = st ∧
  (exceeds (currentSize st + recordBytes data) (maxBytes config) = false →
     st' = setCurrentSize (currentSize st + recordBytes data) st) ∧
  (exceeds (currentSize st + recordBytes data) (maxBytes config) = true →
     currentResults st = [] →
     written st' =
       written st ++ [{| path := nextFileName config st; items := [] |}] ∧
     fileText {| path := nextFileName config st; items := [] |} = "[]" ∧
     fileCounter st' = fileCounter st + 1) ∧
  (exceeds (recordBytes data) (maxBytes config) = true →
     written (run countTokens config [data]) =
       [{| path := nextFileName config initialState; items := [] |}] ∧
     fileCounter (run countTokens config [data]) = 2) ∧
  (∀ records,
     Forall (λ data, tokenCountOf data = None) records →
     records ≠ [] →
     exceeds (batchBytes records) (maxBytes config) = true →
     written (run countTokens config records) ≠ [] ∧
     Forall (λ f, items f = [] ∧ fileText f = "[]")
       (written (run countTokens config records))).
Proof.
  intros Hcount st'.
  assert (tokenPhase countTokens config data st = st) as Hphase.
  { unfold tokenPhase. by rewrite Hcount. }
  subst st'. unfold addContentOrSplit. rewrite Hphase.
  split; [done|]. split; [|split; [|split]].
  - intros Hfits. unfold bytePhase. simpl. fold (recordBytes data).
    by rewrite Hfits.
  - intros Hover Hempty. unfold bytePhase. simpl. fold (recordBytes data).
    rewrite Hover. simpl. by rewrite Hempty.
  - intros Hover. unfold run. simpl. unfold addContentOrSplit, tokenPhase.
    rewrite Hcount. unfold bytePhase. simpl. fold (recordBytes data).
    by rewrite Z.add_0_l, Hover.
  - intros records Hrecords Hsome Hover.
    destruct (all_sentinel_fold records initialState Hrecords eq_refl)
      as (Hbatch & files & Hwritten & Hfiles & Hsize).
    unfold run. rewrite Hbatch. cbn [List.length Nat.ltb Nat.leb].
    rewrite Hwritten. cbn [written initialState app]. split.
    + intros ->. destruct (Hsize eq_refl) as [Hsum Hwithin].
      cbn [currentSize initialState] in Hsum. rewrite Z.add_0_l in Hsum.
      rewrite Hsum, Hover in Hwithin. by specialize (Hwithin Hsome).
    + eapply Forall_impl; [done|]. intros [name batch] Hitems.
      cbn [items] in Hitems. subst batch. done.
Qed.

(** ** Splitting on the byte counter *)

Local Ltac size_check :=
  try done; cbn [currentSize initialState]; rewrite ?Z.add_0_l;
  repeat match goal with
    | H : recordBytes ?r = _ |- context [recordBytes ?r] => rewrite H
    end;
  assumption.

Lemma addContentOrSplit_fits data st :
  maxTokens config = None →
  exceeds (currentSize st + recordBytes data) (maxBytes config) = false →
  addContentOrSplit countTokens config data st =
    {| nextFileNameString := nextFileNameString st;
       currentResults := currentResults st ++ [data];
       currentSize := currentSize st + recordBytes data;
       fileCounter := fileCounter st;
       estimatedTokens :=
         estimatedTokens st + countTokens (JSON_stringify data);
       written := written st |}.
Proof.
  intros Hnone Hfits.
  unfold addContentOrSplit, tokenPhase, tokenLimit, overTokens,
    isWithinTokenLimit, bytePhase.
  rewrite Hnone. cbn [currentSize setCurrentSize setEstimatedTokens push].
  fold (recordBytes data). by rewrite Hfits.
Qed.

Lemma addContentOrSplit_flushes data st :
  maxTokens config = None →
  exceeds (currentSize st + recordBytes data) (maxBytes config) = true →
  addContentOrSplit countTokens config data st =
    {| nextFileNameString := fileName config (fileCounter st);
       currentResults := [];
       currentSize := 0;
       fileCounter := fileCounter st + 1;
       estimatedTokens :=
         estimatedTokens st + countTokens (JSON_stringify data);
       written :=
         written st ++
           [{| path := fileName config (fileCounter st);
               items := currentResults st ++ [data] |}] |}.
Proof.
  intros Hnone Hover.
  unfold addContentOrSplit, tokenPhase, tokenLimit, overTokens,
    isWithinTokenLimit, bytePhase.
  rewrite Hnone. cbn [currentSize setCurrentSize setEstimatedTokens push].
  fold (recordBytes data). by rewrite Hover.
Qed.

(** Five records of [size] bytes each, no token limit, a byte ceiling that
    two records fit under and three do not: the check after the append
    lets the third record into the first file. *)
Lemma greedy_five r1 r2 r3 r4 r5 size :
  maxTokens config = None →
  Forall (λ r, recordBytes r = size) [r1; r2; r3; r4; r5] →
  exceeds size (maxBytes config) = false →
  exceeds (size + size) (maxBytes config) = false →
  exceeds (size + size + size) (maxBytes config) = true →
  written (run countTokens config [r1; r2; r3; r4; r5]) =
    [{| path := fileName config 1; items := [r1; r2; r3] |};
     {| path := fileName config 2; items := [r4; r5] |}] ∧
  write countTokens config [r1; r2; r3; r4; r5] = fileName config 2.
Proof.
  intros Hnone Hsizes H1 H2 H3.
  repeat (apply Forall_cons_1 in Hsizes as [? Hsizes]).
  unfold write, run. cbn [fold_left].
  rewrite (addContentOrSplit_fits r1) by size_check.
  rewrite (addContentOrSplit_fits r2) by size_check.
  rewrite (addContentOrSplit_flushes r3) by size_check.
  cbn [fileCounter currentResults written estimatedTokens initialState app].
  rewrite (addContentOrSplit_fits r4) by size_check.
  rewrite (addContentOrSplit_fits r5) by size_check.
  cbn [fileCounter currentResults written estimatedTokens app].
  done.
Qed.

Lemma greedy_two r1 r2 size :
  maxTokens config = None →
  recordBytes r1 = size → recordBytes r2 = size →
  exceeds size (maxBytes config) = false →
  exceeds (size + size) (maxBytes config) = true →
  written (run countTokens config [r1; r2]) =
    [{| path := fileName config 1; items := [r1; r2] |}].
Proof.
  intros Hnone Hr1 Hr2 H1 H2.
  unfold run. cbn [fold_left].
  rewrite (addContentOrSplit_fits r1) by size_check.
  rewrite (addContentOrSplit_flushes r2) by size_check.
  cbn [fileCounter currentResults written estimatedTokens initialState app].
  done.
Qed.

End WriterProperties.

(** An overflow in the middle of a run: 30 + 34 tokens against a ceiling
    of 50. *)
Lemma token_overflow_splits_witness :
  isWithinTokenLimit oneTokenPerByte (JSON_stringify smallRecord)
    (tokenLimit (limits None (Some 50))) = Some 34 ∧
  overTokens (limits None (Some 50)) (estimatedTokens midRun + 34) = true ∧
  currentResults
    (tokenPhase oneTokenPerByte (limits None (Some 50)) smallRecord midRun) =
    [smallRecord] ∧
  estimatedTokens
    (tokenPhase oneTokenPerByte (limits None (Some 50)) smallRecord midRun) =
    17.
Proof.
  assert (isWithinTokenLimit oneTokenPerByte (JSON_stringify smallRecord)
            (tokenLimit (limits None (Some 50))) = Some 34) as Hcount
    by (vm_compute; reflexivity).
  assert (overTokens (limits None (Some 50)) (estimatedTokens midRun + 34)
          = true) as Hover by (vm_compute; reflexivity).
  split; [exact Hcount|]. split; [exact Hover|].
  destruct (token_overflow_splits oneTokenPerByte (limits None (Some 50))
              smallRecord midRun 34 Hcount) as [Hsplit _].
  destruct (Hsplit Hover) as (Hbatch & Hest & _).
  split; [exact Hbatch|exact Hest].
Defined.

(** A record of 34 tokens against a ceiling of 5: it is in no batch and in
    no file. *)
Lemma sentinel_record_dropped :
  isWithinTokenLimit oneTokenPerByte (JSON_stringify smallRecord)
    (tokenLimit (limits None (Some 5))) = None ∧
  currentResults
    (addContentOrSplit oneTokenPerByte (limits None (Some 5)) smallRecord
       initialState) = [] ∧
  written (run oneTokenPerByte (limits None (Some 5)) [smallRecord]) = [].
Proof. vm_compute. done. Qed.

Lemma sentinel_record_not_written_witness :
  isWithinTokenLimit oneTokenPerByte (JSON_stringify smallRecord)
    (tokenLimit (limits None (Some 5))) = None ∧
  held (addContentOrSplit oneTokenPerByte (limits None (Some 5)) smallRecord
          midRun) = held midRun.
Proof.
  assert (isWithinTokenLimit oneTokenPerByte (JSON_stringify smallRecord)
            (tokenLimit (limits None (Some 5))) = None) as Hcount
    by (vm_compute; reflexivity).
  split; [exact Hcount|].
  exact (proj1 (proj2 (sentinel_record_not_written oneTokenPerByte
                         (limits None (Some 5)) smallRecord midRun []
                         Hcount))).
Defined.

(** One record of 34 bytes and 34 tokens against ceilings of 20 bytes and
    5 tokens. *)
Lemma sentinel_bytes_flush_empty_batch_witness :
  isWithinTokenLimit oneTokenPerByte (JSON_stringify smallRecord)
    (tokenLimit (limits (Some (20 # 1048576)) (Some 5))) = None ∧
  exceeds (recordBytes smallRecord)
    (maxBytes (limits (Some (20 # 1048576)) (Some 5))) = true ∧
  written
    (run oneTokenPerByte (limits (Some (20 # 1048576)) (Some 5))
       [smallRecord]) =
    [{| path := "output-1.json"; items := [] |}].
Proof.
  assert (isWithinTokenLimit oneTokenPerByte (JSON_stringify smallRecord)
            (tokenLimit (limits (Some (20 # 1048576)) (Some 5))) = None)
    as Hcount by (vm_compute; reflexivity).
  assert (exceeds (recordBytes smallRecord)
            (maxBytes (limits (Some (20 # 1048576)) (Some 5))) = true)
    as Hover by (vm_compute; reflexivity).
  split; [exact Hcount|]. split; [exact Hover|].
  destruct (sentinel_bytes_flush_empty_batch oneTokenPerByte
              (limits (Some (20 # 1048576)) (Some 5)) smallRecord
              initialState Hcount) as (_ & _ & _ & Hrun & _).
  exact (proj1 (Hrun Hover)).
Defined.

(** C2, as the code has it.  Five records of 100KB each, a maximum file
    size of 250KB and no token limit: [write] produces exactly two files,
    the first holding the first three records and the second the last two,
    because the byte counter is compared after the record is appended. *)
Theorem five_records_greedy countTokens name r1 r2 r3 r4 r5 :
  Forall (λ r, recordBytes r = 102400) [r1; r2; r3; r4; r5] →
  let config :=
    {| outputFileName := name;
       maxFileSize := Some (250 # 1024);
       maxTokens := None |} in
  written (run countTokens config [r1; r2; r3; r4; r5]) =
    [{| path := fileName config 1; items := [r1; r2; r3] |};
     {| path := fileName config 2; items := [r4; r5] |}] ∧
  write countTokens config [r1; r2; r3; r4; r5] = fileName config 2.
Proof.
  intros Hsizes config.
  apply (greedy_five countTokens config _ _ _ _ _ 102400);
    [reflexivity | exact Hsizes | reflexivity ..].
Qed.

Lemma fiveRecords_sizes : Forall (λ r, recordBytes r = 102400) fiveRecords.
Proof.
  unfold fiveRecords.
  repeat (apply Forall_cons_2; [vm_compute; reflexivity|]).
  apply Forall_nil_2.
Qed.

Lemma five_records_greedy_witness :
  Forall (λ r, recordBytes r = 102400) fiveRecords ∧
  write oneTokenPerByte
    {| outputFileName := "output.json";
       maxFileSize := Some (250 # 1024);
       maxTokens := None |} fiveRecords = "output-2.json".
Proof.
  split; [exact fiveRecords_sizes|].
  exact (proj2 (five_records_greedy oneTokenPerByte "output.json"
                  _ _ _ _ _ fiveRecords_sizes)).
Defined.

(** The scenario of C2 on five records of exactly 102400 bytes: two files
    of three and two records, not three files of two, two and one. *)
Lemma five_records_two_files :
  Forall (λ r, recordBytes r = 102400) fiveRecords ∧
  map (λ f, List.length (items f))
    (written (run oneTokenPerByte (limits (Some (250 # 1024)) None)
                fiveRecords)) = [3; 2]%nat.
Proof.
  split; [exact fiveRecords_sizes|].
  unfold fiveRecords.
  rewrite (proj1 (greedy_five oneTokenPerByte
                    (limits (Some (250 # 1024)) None)
                    _ _ _ _ _ 102400 eq_refl fiveRecords_sizes
                    eq_refl eq_refl eq_refl)).
  reflexivity.
Qed.

(** ** The byte bound *)

Lemma getStringByteSize_nonneg str : 0 ≤ getStringByteSize str.
Proof. induction str as [|c rest IH]; simpl; [done|]. case (_ <? _); lia. Qed.

Lemma recordBytes_nonneg data : 0 ≤ recordBytes data.
Proof. apply getStringByteSize_nonneg. Qed.

Lemma batchBytes_nonneg batch : 0 ≤ batchBytes batch.
Proof.
  induction batch as [|r batch IH]; simpl; [done|].
  pose proof (recordBytes_nonneg r). lia.
Qed.

Lemma batchBytes_snoc batch data :
  batchBytes (batch ++ [data]) = batchBytes batch + recordBytes data.
Proof. induction batch as [|r batch IH]; simpl; lia. Qed.

Lemma exceeds_false n B : exceeds n (Some B) = false ↔ (inject_Z n <= B)%Q.
Proof.
  unfold exceeds. rewrite negb_false_iff. apply Qle_bool_iff.
Qed.

Lemma inject_Z_nonneg n : 0 ≤ n → (0 <= inject_Z n)%Q.
Proof. intros Hn. change 0%Q with (inject_Z 0). by rewrite <- Zle_Qle. Qed.

Lemma withinBound_mono B processed data f :
  withinBound B processed f → withinBound B (processed ++ [data]) f.
Proof.
  intros (r & Hr & Hle). exists r. split; [|done].
  apply elem_of_app. by left.
Qed.

Section ByteBound.

Variable countTokens : string → Z.
Variable config : Config.
Variable B : Q.
Hypothesis maxBytes_B : maxBytes config = Some B.
Hypothesis B_nonneg : (0 <= B)%Q.

Lemma flush_withinBound processed data st :
  betweenCalls B processed st →
  withinBound B (processed ++ [data])
    {| path := nextFileName config st; items := currentResults st |}.
Proof.
  intros [Hbatch Hsize _ _]. exists data. split.
  - apply elem_of_app. right. by apply list_elem_of_singleton.
  - simpl. rewrite Zle_Qle in Hbatch.
    pose proof (inject_Z_nonneg _ (recordBytes_nonneg data)). lra.
Qed.

(** After the token step the batch may hold the record whose bytes are not
    counted yet. *)
Lemma tokenPhase_bound processed data st :
  betweenCalls B processed st →
  let st' := tokenPhase countTokens config data st in
  batchBytes (currentResults st') ≤ currentSize st' + recordBytes data ∧
  0 ≤ currentSize st' ∧
  (inject_Z (currentSize st') <= B)%Q ∧
  Forall (λ r, r ∈ processed ++ [data]) (currentResults st') ∧
  Forall (withinBound B (processed ++ [data])) (written st').
Proof.
  intros Hinv. pose proof Hinv as [Hbatch Hsize Hmem Hfiles].
  pose proof (batchBytes_nonneg (currentResults st)) as Hnonneg.
  pose proof (recordBytes_nonneg data) as Hdata.
  assert (data ∈ processed ++ [data]) as Hlast.
  { apply elem_of_app. right. by apply list_elem_of_singleton. }
  assert (Forall (λ r, r ∈ processed ++ [data]) (currentResults st))
    as Hmem'.
  { eapply Forall_impl; [done|]. intros r Hr. apply elem_of_app. by left. }
  assert (Forall (withinBound B (processed ++ [data])) (written st))
    as Hfiles'.
  { eapply Forall_impl; [done|]. intros f. apply withinBound_mono. }
  unfold tokenPhase.
  destruct (isWithinTokenLimit _ _ _) as [tokenCount|];
    [|simpl; repeat split; try done; lia].
  destruct (overTokens _ _).
  - destruct (0 <? _)%nat; simpl.
    + repeat split; try done; try lia.
      * by apply Forall_singleton.
      * apply Forall_app. split; [done|]. apply Forall_singleton.
        by apply flush_withinBound.
    + rewrite batchBytes_snoc. repeat split; try done; try lia.
      apply Forall_app. split; [done|]. by apply Forall_singleton.
  - simpl. rewrite batchBytes_snoc. repeat split; try done; try lia.
    apply Forall_app. split; [done|]. by apply Forall_singleton.
Qed.

Lemma addContentOrSplit_betweenCalls processed data st :
  betweenCalls B processed st →
  betweenCalls B (processed ++ [data])
    (addContentOrSplit countTokens config data st).
Proof.
  intros Hinv.
  destruct (tokenPhase_bound processed data st Hinv)
    as (Hbatch & Hnonneg & Hsize & Hmem & Hfiles).
  unfold addContentOrSplit, bytePhase.
  set (st1 := tokenPhase countTokens config data st) in *.
  cbn [currentSize setCurrentSize]. fold (recordBytes data).
  rewrite maxBytes_B.
  destruct (exceeds _ _) eqn:Hover.
  - split; simpl; [done|done|done|].
    apply Forall_app. split; [done|]. apply Forall_singleton.
    exists data. split.
    + apply elem_of_app. right. by apply list_elem_of_singleton.
    + simpl. rewrite Zle_Qle in Hbatch. rewrite inject_Z_plus in Hbatch. lra.
  - apply exceeds_false in Hover. by split.
Qed.

Lemma fold_betweenCalls records processed st :
  betweenCalls B processed st →
  betweenCalls B (processed ++ records)
    (fold_left (λ st data, addContentOrSplit countTokens config data st)
       records st).
Proof.
  revert processed st.
  induction records as [|data records IH]; intros processed st Hinv; simpl.
  - by rewrite app_nil_r.
  - rewrite (assoc_L (++) processed [data] records : 
               processed ++ data :: records = (processed ++ [data]) ++ records).
    apply IH. by apply addContentOrSplit_betweenCalls.
Qed.

Lemma initialState_betweenCalls : betweenCalls B [] initialState.
Proof. split; simpl; try done. Qed.

(** C5, as the code has it.  With a byte ceiling [B], the serialized sizes
    of the records of any output file (each record serialized by itself, as
    [addContentOrSplit] measures it) add up to at most [B] plus the
    serialized size of one input record. *)
Theorem file_bytes_bounded records f :
  f ∈ written (run countTokens config records) →
  ∃ r, r ∈ records ∧
       (inject_Z (batchBytes (items f)) <= B + inject_Z (recordBytes r))%Q.
Proof.
  pose proof (fold_betweenCalls records [] initialState
                initialState_betweenCalls) as Hinv.
  rewrite app_nil_l in Hinv. unfold run.
  set (st := fold_left _ records initialState) in *.
  destruct Hinv as [Hbatch Hsize Hmem Hfiles].
  rewrite Forall_forall in Hfiles.
  destruct (0 <? _)%nat eqn:Hlen; [|by apply Hfiles].
  simpl. intros [Hf | Hf%list_elem_of_singleton]%elem_of_app;
    [by apply Hfiles|].
  subst f. simpl.
  destruct (currentResults st) as [|r batch] eqn:Hcur; [done|].
  apply Forall_cons_1 in Hmem as [Hr _]. exists r. split; [done|].
  rewrite Zle_Qle in Hbatch.
  pose proof (inject_Z_nonneg _ (recordBytes_nonneg r)). lra.
Qed.

End ByteBound.

(** ** The size of a pretty-printed file *)

Lemma getStringByteSize_app a b :
  getStringByteSize (a +:+ b) = getStringByteSize a + getStringByteSize b.
Proof. induction a as [|c a IH]; simpl; [done|]. rewrite IH. lia. Qed.

(** Replace the size of a literal by its value. *)
Local Ltac literal_size s :=
  let n := eval vm_compute in (getStringByteSize s) in
  try change (getStringByteSize s) with n.

Local Ltac literal_sizes :=
  literal_size "{"; literal_size "}"; literal_size "["; literal_size "]";
  literal_size ":"; literal_size ": "; literal_size ","; literal_size "";
  literal_size newline; literal_size gap; literal_size "  ";
  literal_size dquote; literal_size (quoteJSONString "");
  literal_size (quoteJSONString "title"); literal_size (quoteJSONString "url");
  literal_size (quoteJSONString "text").

Lemma recordBytes_pageRecord title url text :
  recordBytes (pageRecord title url text) =
    25 + getStringByteSize (quoteJSONString title)
       + getStringByteSize (quoteJSONString url)
       + getStringByteSize (quoteJSONString text).
Proof.
  unfold recordBytes, pageRecord. cbn [JSON_stringify join map].
  rewrite !getStringByteSize_app. literal_sizes. lia.
Qed.

Lemma indented_pageRecord indent title url text :
  getStringByteSize
    (JSON_stringify_indent indent (pageRecord title url text)) =
    recordBytes (pageRecord title url text) + 4 * getStringByteSize indent
      + 13.
Proof.
  rewrite recordBytes_pageRecord.
  unfold pageRecord. cbn [JSON_stringify_indent join map].
  rewrite !getStringByteSize_app. literal_sizes. lia.
Qed.

Lemma escapeString_repeat n : escapeString (repeatChar "a" n) = repeatChar "a" n.
Proof. induction n as [|n IH]; [done|]. simpl. by rewrite IH. Qed.

Lemma getStringByteSize_repeat n :
  getStringByteSize (repeatChar "a" n) = Z.of_nat n.
Proof.
  induction n as [|n IH]; [done|].
  cbn [repeatChar getStringByteSize]. rewrite IH.
  change (code "a" <? 128) with true. lia.
Qed.

Lemma recordBytes_mebibyte title :
  getStringByteSize (quoteJSONString title) = 3 →
  recordBytes (mebibyte title) = 1048576.
Proof.
  intros Htitle. unfold mebibyte. rewrite recordBytes_pageRecord, Htitle.
  unfold quoteJSONString at 2. rewrite escapeString_repeat.
  rewrite !getStringByteSize_app, getStringByteSize_repeat.
  rewrite Z2Nat.id by done. literal_sizes. lia.
Qed.

Lemma fileText_two_pageRecords name t1 u1 x1 t2 u2 x2 :
  getStringByteSize
    (fileText {| path := name;
                 items := [pageRecord t1 u1 x1; pageRecord t2 u2 x2] |}) =
    recordBytes (pageRecord t1 u1 x1) + recordBytes (pageRecord t2 u2 x2)
      + 52.
Proof.
  unfold fileText. cbn [items].
  change (JSON_stringify_indent "" (VArr [pageRecord t1 u1 x1;
                                          pageRecord t2 u2 x2]))
    with ("[" +:+ newline +:+ "  " +:+
          join ("," +:+ newline +:+ "  ")
            [JSON_stringify_indent "  " (pageRecord t1 u1 x1);
             JSON_stringify_indent "  " (pageRecord t2 u2 x2)] +:+
          newline +:+ "" +:+ "]").
  cbn [join]. rewrite !getStringByteSize_app, !indented_pageRecord.
  literal_sizes. lia.
Qed.

(** Two records of one mebibyte each against a maximum file size of one
    megabyte: the first fills the byte counter to the ceiling exactly, the
    second takes it over, and the file written with both is larger than the
    ceiling plus the larger of the two records. *)
Lemma pretty_file_exceeds_byte_bound :
  maxBytes (limits (Some 1%Q) None) = Some (1 * 1024 * 1024)%Q ∧
  recordBytes (mebibyte "1") = 1048576 ∧
  recordBytes (mebibyte "2") = 1048576 ∧
  written (run oneTokenPerByte (limits (Some 1%Q) None)
             [mebibyte "1"; mebibyte "2"]) =
    [{| path := "output-1.json"; items := [mebibyte "1"; mebibyte "2"] |}] ∧
  getStringByteSize
    (fileText
       {| path := "output-1.json";
          items := [mebibyte "1"; mebibyte "2"] |}) = 2097204 ∧
  1048576 + 1048576 < 2097204.
Proof.
  assert (recordBytes (mebibyte "1") = 1048576) as H1
    by (by apply recordBytes_mebibyte).
  assert (recordBytes (mebibyte "2") = 1048576) as H2
    by (by apply recordBytes_mebibyte).
  split; [reflexivity|]. split; [exact H1|]. split; [exact H2|].
  split; [|split; [|done]].
  - exact (greedy_two oneTokenPerByte (limits (Some 1%Q) None)
             (mebibyte "1") (mebibyte "2") 1048576
             eq_refl H1 H2 eq_refl eq_refl).
  - unfold mebibyte in *. rewrite fileText_two_pageRecords, H1, H2. done.
Qed.

(** Four records of 37 bytes against a ceiling of 85 bytes: the first file
    takes three of them, 111 bytes against 85 + 37. *)
Lemma file_bytes_bounded_witness :
  maxBytes (limits (Some (85 # 1048576)) None) =
    Some ((85 # 1048576) * 1024 * 1024)%Q ∧
  (0 <= (85 # 1048576) * 1024 * 1024)%Q ∧
  ∃ r, r ∈ fourRecords ∧
       (inject_Z (batchBytes [pageRecord "T1" "U1" "X1";
                              pageRecord "T2" "U2" "X2";
                              pageRecord "T3" "U3" "X3"])
        <= (85 # 1048576) * 1024 * 1024 + inject_Z (recordBytes r))%Q.
Proof.
  assert (0 <= (85 # 1048576) * 1024 * 1024)%Q as Hpos by (vm_compute; discriminate).
  split; [reflexivity|]. split; [exact Hpos|].
  apply (file_bytes_bounded oneTokenPerByte
           (limits (Some (85 # 1048576)) None)
           ((85 # 1048576) * 1024 * 1024)%Q eq_refl Hpos fourRecords
           {| path := "output-1.json";
              items := [pageRecord "T1" "U1" "X1";
                        pageRecord "T2" "U2" "X2";
                        pageRecord "T3" "U3" "X3"] |}).
  vm_compute. apply list_elem_of_here.
Defined.

(** * Properties of the extractor *)

Lemma extract_atom obj seen :
  isComposite obj = false → extractContentRecursively obj seen = Ok ([], seen).
Proof.
  destruct obj; try done; intros _; simpl; by rewrite ?orb_true_r.
Qed.

Lemma extract_composite obj seen :
  isComposite obj = true →
  extractContentRecursively obj seen =
    if bool_decide (JSON_stringify obj ∈ seen) then Ok ([], seen)
    else st ← ownFragments obj ([], {[JSON_stringify obj]} ∪ seen);
         visitChildren obj st.
Proof. destruct obj; try done; intros _; reflexivity. Qed.

Lemma extractTraced_atom obj seen :
  isComposite obj = false → extractTraced obj seen = Ok ([], seen).
Proof.
  destruct obj; try done; intros _; simpl; by rewrite ?orb_true_r.
Qed.

Lemma extractTraced_composite obj seen :
  isComposite obj = true →
  extractTraced obj seen =
    if bool_decide (JSON_stringify obj ∈ seen) then Ok ([], seen)
    else st ← ownFragmentsTraced obj ([], {[JSON_stringify obj]} ∪ seen);
         visitChildrenTraced obj st.
Proof. destruct obj; try done; intros _; reflexivity. Qed.

(** ** The traced extractor computes the extractor *)

Lemma ownFragments_fragments obj st :
  ownFragments obj (fragments st) = fragments <$> ownFragmentsTraced obj st.
Proof.
  destruct st as [emitted seen].
  unfold ownFragments, ownFragmentsTraced, extractText, extractTextTraced,
    extractHref, extractHrefTraced, extractSrc, extractSrcTraced, fragments.
  cbn [fst snd].
  repeat (first
    [ progress cbn [mbind result_bind fmap result_fmap fst snd]
    | rewrite map_app
    | match goal with
      | |- context [match getProp ?o ?k with _ => _ end] =>
          destruct (getProp o k)
      | |- context [if ?b then _ else _] => destruct b
      | |- context [toString ?v] => destruct (toString v)
      end ]); done.
Qed.

Lemma ownFragments_fragments_start obj seen :
  ownFragments obj ([], seen) = fragments <$> ownFragmentsTraced obj ([], seen).
Proof. exact (ownFragments_fragments obj ([], seen)). Qed.

Lemma forEach_fragments {A : Type}
    (visit : A → gset string → result acc)
    (visitTraced : A → gset string → result trace) xs st :
  Forall (λ x, ∀ seen, visit x seen = fragments <$> visitTraced x seen) xs →
  forEach visit xs (fragments st) = fragments <$> forEach visitTraced xs st.
Proof.
  intros Hxs. revert st.
  induction Hxs as [|x rest Hx _ IH]; intros st; [done|].
  cbn [forEach]. change (fragments st).2 with st.2. rewrite Hx.
  destruct (visitTraced x st.2) as [[out seen']|e]; [|done].
  cbn [mbind result_bind fmap result_fmap fragments fst snd].
  rewrite <- map_app. apply (IH (st.1 ++ out, seen')).
Qed.

Lemma visitChildren_fragments obj st :
  match obj with
  | VArr items =>
      Forall (λ x, ∀ seen, extractContentRecursively x seen =
                            fragments <$> extractTraced x seen) items
  | VObj props =>
      Forall (λ p, ∀ seen, extractContentRecursively p.2 seen =
                            fragments <$> extractTraced p.2 seen) props
  | _ => True
  end →
  visitChildren obj (fragments st) = fragments <$> visitChildrenTraced obj st.
Proof.
  destruct obj as [| | | | |items|props]; try done; intros Hchildren;
    unfold visitChildren, visitChildrenTraced.
  - rewrite (forEach_fragments _ extractTraced) by done.
    destruct (forEach extractTraced items st) as [st'|e]; [|done].
    cbn [mbind result_bind fmap result_fmap].
    by rewrite (forEach_fragments _ extractTraced).
  - cbn [mbind result_bind].
    by rewrite (forEach_fragments _ (λ p, extractTraced p.2)).
Qed.

Lemma extract_fragments obj :
  ∀ seen,
    extractContentRecursively obj seen = fragments <$> extractTraced obj seen.
Proof.
  induction obj as [obj Hatom|items IH|props IH] using value_nested_ind;
    intros seen.
  - by rewrite extract_atom, extractTraced_atom.
  - rewrite extract_composite, extractTraced_composite by done.
    destruct (bool_decide _); [done|].
    rewrite ownFragments_fragments_start.
    destruct (ownFragmentsTraced _ _) as [st|e]; [|done].
    cbn [mbind result_bind fmap result_fmap].
    by apply visitChildren_fragments.
  - rewrite extract_composite, extractTraced_composite by done.
    destruct (bool_decide _); [done|].
    rewrite ownFragments_fragments_start.
    destruct (ownFragmentsTraced _ _) as [st|e]; [|done].
    cbn [mbind result_bind fmap result_fmap].
    by apply visitChildren_fragments.
Qed.

(** ** Every value is marked once *)

Lemma fresh_nil before after : before ⊆ after → fresh before [] after.
Proof.
  intros Hsub. split; [done|]. split; [constructor|]. split; [|done].
  intros v Hv. by apply elem_of_nil in Hv.
Qed.

Lemma fresh_snoc before emitted seen e :
  fresh before emitted seen → marked e ∉ seen → shaped e →
  fresh before (emitted ++ [e]) ({[marked e]} ∪ seen).
Proof.
  intros (Hsub & Hnodup & Hmarked & Hshaped) Hnew He.
  unfold fresh, markedValues in *.
  rewrite map_app. simpl. split; [clear Hmarked; set_solver|].
  split; [|split].
  - apply NoDup_app. split; [done|]. split; [|apply NoDup_singleton].
    intros v Hv ->%list_elem_of_singleton. apply Hmarked in Hv. tauto.
  - intros v [Hv | ->%list_elem_of_singleton]%elem_of_app.
    + destruct (Hmarked v Hv) as [Hbefore Hafter]. clear Hmarked Hv.
      set_solver.
    + clear Hmarked. set_solver.
  - apply Forall_app. split; [done|]. by apply Forall_singleton.
Qed.

Lemma fresh_app before emitted seen out seen' :
  fresh before emitted seen → fresh seen out seen' →
  fresh before (emitted ++ out) seen'.
Proof.
  intros (Hsub & Hnodup & Hmarked & Hshaped)
    (Hsub' & Hnodup' & Hmarked' & Hshaped').
  unfold fresh, markedValues in *. rewrite map_app.
  split; [by etrans|]. split; [|split].
  - apply NoDup_app. split; [done|]. split; [|done].
    intros v Hv Hv'. apply Hmarked in Hv. apply Hmarked' in Hv'. tauto.
  - intros v [Hv | Hv]%elem_of_app.
    + destruct (Hmarked v Hv) as [Hbefore Hafter]. split; [done|].
      by apply Hsub'.
    + destruct (Hmarked' v Hv) as [Hbefore Hafter]. split; [|done].
      intros Hin. by apply Hbefore, Hsub.
  - by apply Forall_app.
Qed.

Lemma fresh_weaken before before' emitted after :
  before' ⊆ before → fresh before emitted after → fresh before' emitted after.
Proof.
  intros Hsub (Hsub' & Hnodup & Hmarked & Hshaped). split; [by etrans|].
  split; [done|]. split; [|done]. intros v Hv.
  destruct (Hmarked v Hv) as [Hbefore Hafter]. split; [|done].
  intros Hin. by apply Hbefore, Hsub.
Qed.

Lemma extractTextTraced_fresh obj before st :
  fresh before st.1 st.2 →
  fresh before (extractTextTraced obj st).1 (extractTextTraced obj st).2.
Proof.
  destruct st as [emitted seen]. unfold extractTextTraced. intros Hfresh.
  destruct (getProp obj "text") as [| | | |text| |]; try done.
  destruct (truthy _); [|done]. cbn [andb].
  case_bool_decide as Hnew; [|done].
  by apply (fresh_snoc _ _ _
              {| origin := TextField; marked := trim text;
                 fragment := trim text |}).
Qed.

Lemma extractHrefTraced_fresh obj before st st' :
  fresh before st.1 st.2 → extractHrefTraced obj st = Ok st' →
  fresh before st'.1 st'.2.
Proof.
  destruct st as [emitted seen]. unfold extractHrefTraced. intros Hfresh.
  destruct (getProp obj "href") as [| | | |href| |];
    try (intros [= <-]; done).
  destruct (truthy _); [|intros [= <-]; done]. cbn [andb].
  case_bool_decide as Hnew; [|intros [= <-]; done].
  destruct (toString _) as [label|e]; [|done].
  cbn [mbind result_bind]. intros [= <-].
  apply (fresh_snoc _ _ _
           {| origin := HrefField; marked := href;
              fragment := label +:+ ": " +:+ href |}); [done|done|].
  by exists label.
Qed.

Lemma extractSrcTraced_fresh obj before st :
  fresh before st.1 st.2 →
  fresh before (extractSrcTraced obj st).1 (extractSrcTraced obj st).2.
Proof.
  destruct st as [emitted seen]. unfold extractSrcTraced. intros Hfresh.
  destruct (getProp obj "src") as [| | | |src| |]; try done.
  destruct (truthy _); [|done]. cbn [andb].
  case_bool_decide as Hnew; [|done].
  by apply (fresh_snoc _ _ _
              {| origin := SrcField; marked := src;
                 fragment := "Image: " +:+ src |}).
Qed.

Lemma ownFragmentsTraced_fresh obj before st st' :
  fresh before st.1 st.2 → ownFragmentsTraced obj st = Ok st' →
  fresh before st'.1 st'.2.
Proof.
  intros Hfresh. unfold ownFragmentsTraced.
  destruct (extractHrefTraced _ _) as [st1|e] eqn:Hhref; [|done].
  cbn [mbind result_bind]. intros [= <-].
  apply extractSrcTraced_fresh.
  eapply extractHrefTraced_fresh; [|done].
  by apply extractTextTraced_fresh.
Qed.

Lemma forEach_fresh {A : Type} (visit : A → gset string → result trace)
    xs before st st' :
  visitsFresh visit xs →
  fresh before st.1 st.2 → forEach visit xs st = Ok st' →
  fresh before st'.1 st'.2.
Proof.
  intros Hxs. revert st.
  induction Hxs as [|x rest Hx _ IH]; intros st Hfresh; cbn [forEach].
  - by intros [= <-].
  - destruct (visit x st.2) as [[out seen1]|e] eqn:Hvisit; [|done].
    cbn [mbind result_bind]. apply IH. cbn [fst snd].
    eapply fresh_app; [done|]. by apply Hx.
Qed.

Lemma visitChildrenTraced_fresh obj before st st' :
  match obj with
  | VArr items => visitsFresh extractTraced items
  | VObj props => visitsFresh (λ p, extractTraced p.2) props
  | _ => True
  end →
  fresh before st.1 st.2 → visitChildrenTraced obj st = Ok st' →
  fresh before st'.1 st'.2.
Proof.
  unfold visitChildrenTraced.
  destruct obj as [| | | | |items|props]; intros Hchildren Hfresh;
    cbn [mbind result_bind]; try (intros [= <-]; done).
  - destruct (forEach extractTraced items st) as [st1|e] eqn:Hfirst; [|done].
    apply forEach_fresh; [done|]. by eapply forEach_fresh.
  - by apply forEach_fresh.
Qed.

Lemma composite_fresh obj seen emitted seen' :
  isComposite obj = true →
  match obj with
  | VArr items => visitsFresh extractTraced items
  | VObj props => visitsFresh (λ p, extractTraced p.2) props
  | _ => True
  end →
  JSON_stringify obj ∉ seen →
  extractTraced obj seen = Ok (emitted, seen') →
  fresh ({[JSON_stringify obj]} ∪ seen) emitted seen'.
Proof.
  intros Hcomposite Hchildren Hnew.
  rewrite extractTraced_composite by done.
  rewrite bool_decide_eq_false_2 by done.
  destruct (ownFragmentsTraced _ _) as [st|e] eqn:Hown; [|done].
  cbn [mbind result_bind]. intros Hvisit.
  apply (visitChildrenTraced_fresh obj _ st (emitted, seen')); [done| |done].
  eapply ownFragmentsTraced_fresh; [|done]. by apply fresh_nil.
Qed.

Lemma extractTraced_fresh obj :
  ∀ seen emitted seen',
    extractTraced obj seen = Ok (emitted, seen') → fresh seen emitted seen'.
Proof.
  assert (∀ obj seen emitted seen',
            isComposite obj = true →
            match obj with
            | VArr items => visitsFresh extractTraced items
            | VObj props => visitsFresh (λ p, extractTraced p.2) props
            | _ => True
            end →
            extractTraced obj seen = Ok (emitted, seen') →
            fresh seen emitted seen') as Hnode.
  { intros node seen emitted seen' Hcomposite Hchildren Hrun.
    destruct (decide (JSON_stringify node ∈ seen)) as [Hseen|Hnew].
    - rewrite extractTraced_composite in Hrun by done.
      rewrite bool_decide_eq_true_2 in Hrun by done.
      injection Hrun as <- <-. by apply fresh_nil.
    - eapply fresh_weaken; [|by eapply composite_fresh]. set_solver. }
  induction obj as [obj Hatom|items IH|props IH] using value_nested_ind;
    intros seen emitted seen'.
  - rewrite extractTraced_atom by done. intros [= <- <-]. by apply fresh_nil.
  - by apply Hnode.
  - by apply Hnode.
Qed.

Lemma children_visitsFresh obj :
  match obj with
  | VArr items => visitsFresh extractTraced items
  | VObj props => visitsFresh (λ p, extractTraced p.2) props
  | _ => True
  end.
Proof.
  destruct obj as [| | | | |items|props]; try done; apply Forall_forall.
  - intros x _. apply extractTraced_fresh.
  - intros p _. apply extractTraced_fresh.
Qed.

(** What the extractor returns is what the traced extractor returns, the
    origins forgotten. *)
Lemma extract_traced obj seen out seen' :
  extractContentRecursively obj seen = Ok (out, seen') →
  ∃ emitted, extractTraced obj seen = Ok (emitted, seen') ∧
             out = map fragment emitted.
Proof.
  rewrite extract_fragments.
  destruct (extractTraced obj seen) as [[emitted after]|e]; [|done].
  cbn [fmap result_fmap fragments fst snd]. intros [= <- <-]. by exists emitted.
Qed.

Lemma extract_grows obj seen out seen' :
  extractContentRecursively obj seen = Ok (out, seen') → seen ⊆ seen'.
Proof.
  intros (emitted & Hrun & _)%extract_traced.
  by apply extractTraced_fresh in Hrun as (Hsub & _).
Qed.

Lemma extract_marks_node obj seen out seen' :
  isComposite obj = true →
  extractContentRecursively obj seen = Ok (out, seen') →
  JSON_stringify obj ∈ seen'.
Proof.
  intros Hcomposite (emitted & Hrun & _)%extract_traced.
  destruct (decide (JSON_stringify obj ∈ seen)) as [Hseen|Hnew].
  - apply extractTraced_fresh in Hrun as (Hsub & _). set_solver.
  - apply composite_fresh in Hrun as (Hsub & _);
      [set_solver|done|apply children_visitsFresh|done].
Qed.

(** ** When the extractor returns *)

Lemma toString_returns v : noOwnToString v = true → ∃ s, toString v = Ok s.
Proof.
  induction v as [v Hatom|items IH|props _] using value_nested_ind.
  - destruct v as [| |[|]| | | |]; try done; intros _; by eexists.
  - cbn [noOwnToString toString]. intros Hitems.
    induction IH as [|x rest Hx _ IHrest]; [by eexists|].
    cbn [forallb] in Hitems. apply andb_prop in Hitems as [Hhead Hrest].
    destruct (IHrest Hrest) as [joined Hjoined].
    assert (∃ first, match x with
                     | VUndefined | VNull => Ok ""
                     | _ => toString x
                     end = Ok first) as [first Hfirst].
    { destruct x; try (by eexists); by apply Hx. }
    rewrite Hfirst. destruct rest as [|y rest]; [by eexists|].
    rewrite Hjoined. by eexists.
  - cbn [noOwnToString toString]. intros [Hown _]%andb_prop.
    apply negb_true_iff in Hown. rewrite Hown. by eexists.
Qed.

Lemma lookupProp_noOwnToString k props :
  forallb (λ p, noOwnToString p.2) props = true →
  noOwnToString (lookupProp k props) = true.
Proof.
  induction props as [|[k' v] props IH]; [done|].
  cbn [forallb lookupProp snd]. intros [Hv Hprops]%andb_prop.
  destruct (String.eqb k k'); [done|by apply IH].
Qed.

Lemma getProp_noOwnToString obj k :
  noOwnToString obj = true → noOwnToString (getProp obj k) = true.
Proof.
  destruct obj as [| | | | |items|props]; try done.
  cbn [noOwnToString getProp]. intros [_ Hprops]%andb_prop.
  by apply lookupProp_noOwnToString.
Qed.

Lemma ownFragments_returns obj st :
  noOwnToString obj = true → ∃ st', ownFragments obj st = Ok st'.
Proof.
  intros Hobj. destruct st as [extracted seen].
  unfold ownFragments, extractHref.
  destruct (extractText obj (extracted, seen)) as [extracted1 seen1].
  destruct (getProp obj "href") as [| | | |href| |];
    try (by eexists).
  destruct (truthy (VStr href) && bool_decide (href ∉ seen1));
    [|by eexists].
  destruct (toString_returns
              (if truthy (getProp obj "text") then getProp obj "text"
               else VStr "Link")) as [label Hlabel].
  { destruct (truthy _); [|done]. by apply getProp_noOwnToString. }
  rewrite Hlabel. by eexists.
Qed.

Lemma forEach_returns {A : Type} (visit : A → gset string → result acc)
    xs st :
  Forall (λ x, ∀ seen, ∃ st', visit x seen = Ok st') xs →
  ∃ st', forEach visit xs st = Ok st'.
Proof.
  intros Hxs. revert st.
  induction Hxs as [|x rest Hx _ IH]; intros st; [by eexists|].
  cbn [forEach]. destruct (Hx st.2) as [[out seen'] ->].
  cbn [mbind result_bind]. apply IH.
Qed.

(** The extractor returns on every value that has no property named
    [toString]: the conversion of the label is the one step that can
    throw. *)
Lemma extract_returns obj :
  noOwnToString obj = true →
  ∀ seen, ∃ st, extractContentRecursively obj seen = Ok st.
Proof.
  induction obj as [obj Hatom|items IH|props IH] using value_nested_ind;
    intros Hobj seen.
  - rewrite extract_atom by done. by eexists.
  - rewrite extract_composite by done.
    destruct (bool_decide _); [by eexists|].
    destruct (ownFragments_returns (VArr items)
                ([], {[JSON_stringify (VArr items)]} ∪ seen) Hobj)
      as [st ->].
    cbn [mbind result_bind]. unfold visitChildren.
    assert (Forall (λ x, ∀ seen, ∃ st',
                      extractContentRecursively x seen = Ok st') items)
      as Hitems.
    { cbn [noOwnToString] in Hobj. rewrite forallb_forall in Hobj.
      rewrite Forall_forall in IH. apply Forall_forall.
      intros x Hx. apply IH; [done|]. by apply Hobj, list_elem_of_In. }
    destruct (forEach_returns extractContentRecursively items st Hitems)
      as [st1 ->].
    cbn [mbind result_bind]. by apply forEach_returns.
  - rewrite extract_composite by done.
    destruct (bool_decide _); [by eexists|].
    destruct (ownFragments_returns (VObj props)
                ([], {[JSON_stringify (VObj props)]} ∪ seen) Hobj)
      as [st ->].
    cbn [mbind result_bind]. unfold visitChildren.
    cbn [mbind result_bind]. apply forEach_returns.
    cbn [noOwnToString] in Hobj. apply andb_prop in Hobj as [_ Hprops].
    rewrite forallb_forall in Hprops.
    rewrite Forall_forall in IH. apply Forall_forall.
    intros p Hp. apply IH; [done|]. by apply Hprops, list_elem_of_In.
Qed.

(** ** Skipped sub-trees, fragment order, conversions and marked values *)

(** The test of line 78.  A composite node whose serialization is in the
    set when the node is reached contributes nothing, and neither do its
    descendants: the call returns no fragment and leaves the set alone.  A
    visit that returns leaves the serialization in the set, and the set only
    grows, so a later visit of the same serialization gives nothing.  A
    composite node whose serialization is not in the set is processed: the
    serialization is added, the node's own fields are examined against the
    set and its children are visited. *)
Theorem duplicate_subtree_skipped obj seen :
  isComposite obj = true →
  (JSON_stringify obj ∈ seen →
     extractContentRecursively obj seen = Ok ([], seen)) ∧
  (∀ out seen' later,
     extractContentRecursively obj seen = Ok (out, seen') →
     seen' ⊆ later →
     extractContentRecursively obj later = Ok ([], later)) ∧
  (JSON_stringify obj ∉ seen →
     extractContentRecursively obj seen =
       (st ← ownFragments obj ([], {[JSON_stringify obj]} ∪ seen);
        visitChildren obj st)).
Proof.
  intros Hcomposite. split; [|split].
  - intros Hseen. rewrite extract_composite by done.
    by rewrite bool_decide_eq_true_2.
  - intros out seen' later Hrun Hlater.
    apply extract_marks_node in Hrun; [|done].
    rewrite extract_composite by done.
    rewrite bool_decide_eq_true_2; [done|]. by apply Hlater.
  - intros Hnew. rewrite extract_composite by done.
    by rewrite bool_decide_eq_false_2.
Qed.

(** C7.  The object with text, href and src gives the trimmed text, then
    the href labelled with the text, then the src after "Image: "; without
    a text the label is "Link". *)
Lemma linkedImage_fragments :
  extract linkedImage =
    Ok ["Hi"; "Hi: https://x.test"; "Image: https://x.test/img.png"].
Proof. vm_compute. reflexivity. Qed.

Lemma linkedImage_run :
  extractContentRecursively linkedImage ∅ =
    Ok (["Hi"; "Hi: https://x.test"; "Image: https://x.test/img.png"],
        seenAfterLinkedImage).
Proof.
  pose proof linkedImage_fragments as Hout.
  unfold extract in Hout. unfold seenAfterLinkedImage.
  destruct (extractContentRecursively linkedImage ∅) as [[out seen]|e];
    [|done].
  cbn [mbind result_bind fst snd] in *. by injection Hout as ->.
Qed.

Theorem text_href_src_in_order :
  extract linkedImage =
    Ok ["Hi"; "Hi: https://x.test"; "Image: https://x.test/img.png"] ∧
  extract
    (VObj [("href", VStr "https://x.test");
           ("src", VStr "https://x.test/img.png")]) =
    Ok ["Link: https://x.test"; "Image: https://x.test/img.png"].
Proof. split; [exact linkedImage_fragments|vm_compute; reflexivity]. Qed.

(** C8 at the input [{href: "https://x.test", text: {toString: 1}}]: the
    label of the href fragment is made from a text that is an object with
    an own property [toString], and the conversion throws. *)
Theorem label_of_object_text_throws :
  extract
    (VObj [("href", VStr "https://x.test");
           ("text", VObj [("toString", VNum 1)])]) = Throw TypeError.
Proof. vm_compute. reflexivity. Qed.

(** C9.  When the extractor returns, every fragment comes from a value
    (a trimmed text, an href or a src) that was marked in the set for it;
    no value was marked for two fragments, and none was in the set before:
    once a value is marked, no later field with that value gives a
    fragment. *)
Theorem fragments_from_distinct_values obj seen out seen' :
  extractContentRecursively obj seen = Ok (out, seen') →
  ∃ emitted,
    extractTraced obj seen = Ok (emitted, seen') ∧
    out = map fragment emitted ∧
    Forall shaped emitted ∧
    NoDup (markedValues emitted) ∧
    (∀ v, v ∈ markedValues emitted → (v ∉ seen) ∧ v ∈ seen').
Proof.
  intros (emitted & Hrun & ->)%extract_traced. exists emitted.
  pose proof (extractTraced_fresh _ _ _ _ Hrun)
    as (_ & Hnodup & Hmarked & Hshaped).
  done.
Qed.

Lemma duplicate_subtree_skipped_witness :
  isComposite linkedImage = true ∧
  extractContentRecursively linkedImage seenAfterLinkedImage =
    Ok ([], seenAfterLinkedImage).
Proof.
  split; [reflexivity|].
  apply (proj1 (proj2 (duplicate_subtree_skipped linkedImage ∅ eq_refl))
           ["Hi"; "Hi: https://x.test"; "Image: https://x.test/img.png"]
           seenAfterLinkedImage seenAfterLinkedImage).
  - exact linkedImage_run.
  - reflexivity.
Defined.

(** Identical siblings give their fragments once; a sibling with one more
    field is processed, and only its text, marked already, is suppressed. *)
Lemma identical_siblings_once :
  extract (VArr [linkedImage; linkedImage]) = extract (VArr [linkedImage]) ∧
  extract
    (VArr [greeting;
           VObj [("text", VStr "Hello"); ("src", VStr "https://x.test/a.png")]])
    = Ok ["Hello"; "Image: https://x.test/a.png"].
Proof. split; vm_compute; reflexivity. Qed.

(** C6 at the input of two siblings that differ in their text field, the
    text of the first being the serialization of the second.  Line 90 puts
    that text into the set that line 78 tests for visited objects, so the
    second sibling, which is no duplicate of anything visited, is skipped
    and "Hello" gives no fragment.  On its own the second gives "Hello". *)
Lemma differing_subtree_not_processed :
  quotedGreeting ≠ greeting ∧
  extract (VArr [quotedGreeting; greeting]) = Ok [JSON_stringify greeting] ∧
  extract (VArr [greeting]) = Ok ["Hello"].
Proof. split; [done|]. split; vm_compute; reflexivity. Qed.

Lemma fragments_from_distinct_values_witness :
  extractContentRecursively linkedImage ∅ =
    Ok (["Hi"; "Hi: https://x.test"; "Image: https://x.test/img.png"],
        seenAfterLinkedImage) ∧
  ∃ emitted,
    extractTraced linkedImage ∅ = Ok (emitted, seenAfterLinkedImage) ∧
    ["Hi"; "Hi: https://x.test"; "Image: https://x.test/img.png"] =
      map fragment emitted ∧
    Forall shaped emitted ∧
    NoDup (markedValues emitted) ∧
    (∀ v, v ∈ markedValues emitted →
          (v ∉ (∅ : gset string)) ∧ v ∈ seenAfterLinkedImage).
Proof.
  split; [exact linkedImage_run|].
  exact (fragments_from_distinct_values linkedImage ∅ _ _ linkedImage_run).
Defined.

(** * Further properties of the writer *)

(** ** File names *)

Lemma append_nonempty_r a b : b ≠ "" → a +:+ b ≠ "".
Proof. destruct a; [done|]. intros _. done. Qed.

Lemma append_inj_l a x y : a +:+ x = a +:+ y → x = y.
Proof. induction a as [|c a IH]; [done|]. intros [= H]. by apply IH. Qed.

Lemma length_append a b :
  String.length (a +:+ b) = (String.length a + String.length b)%nat.
Proof. induction a as [|c a IH]; [done|]. simpl. by rewrite IH. Qed.

Lemma append_inj_r b x y : x +:+ b = y +:+ b → x = y.
Proof.
  revert y. induction x as [|c x IH]; intros [|d y] Heq; [done| | |].
  - apply (f_equal String.length) in Heq.
    rewrite !length_append in Heq. simpl in Heq. lia.
  - apply (f_equal String.length) in Heq.
    rewrite !length_append in Heq. simpl in Heq. lia.
  - injection Heq as -> Heq. f_equal. by apply IH.
Qed.

Lemma to_int_normal z : Z.to_int z ≠ Decimal.Pos Decimal.Nil ∧
                        Z.to_int z ≠ Decimal.Neg Decimal.Nil.
Proof.
  pose proof (DecimalZ.to_of (Z.to_int z)) as Hnorm.
  rewrite DecimalZ.of_to in Hnorm.
  split; intros Hnil; rewrite Hnil in Hnorm; discriminate.
Qed.

Lemma numberToString_inj m n : numberToString m = numberToString n → m = n.
Proof.
  unfold numberToString. intros Heq. apply DecimalZ.to_int_inj.
  destruct (to_int_normal m) as [Hm1 Hm2], (to_int_normal n) as [Hn1 Hn2].
  pose proof (NilZero.isi _ Hm1 Hm2) as Hm. rewrite Heq in Hm.
  rewrite (NilZero.isi _ Hn1 Hn2) in Hm. by injection Hm.
Qed.

Lemma fileName_inj config m n : fileName config m = fileName config n → m = n.
Proof.
  unfold fileName. intros Heq.
  apply append_inj_l, append_inj_l, append_inj_r in Heq.
  by apply numberToString_inj.
Qed.

Lemma fileName_nonempty config n : fileName config n ≠ "".
Proof.
  unfold fileName. apply append_nonempty_r. done.
Qed.

Section WriterJournal.

Variable countTokens : string → Z.
Variable config : Config.

Lemma journal_writeBatchToFile st :
  journal config st → journal config (writeBatchToFile config st).
Proof.
  intros [Hcounter Hpaths Hlast]. split; cbn [writeBatchToFile fileCounter
    written nextFileNameString].
  - rewrite length_app. simpl. lia.
  - intros i f [Hold | [Hi Hnew]]%lookup_app_Some; [by apply Hpaths|].
    destruct (i - List.length (written st))%nat as [|k] eqn:Hk; [|done].
    injection Hnew as <-. cbn [path]. unfold nextFileName.
    rewrite Hcounter. f_equal. lia.
  - by rewrite last_snoc.
Qed.

Lemma journal_tokenPhase data st :
  journal config st → journal config (tokenPhase countTokens config data st).
Proof.
  intros Hst. unfold tokenPhase.
  destruct (isWithinTokenLimit _ _ _) as [tokenCount|]; [|done].
  destruct (overTokens _ _).
  - destruct (0 <? _)%nat.
    + by destruct (journal_writeBatchToFile st Hst).
    + by destruct Hst.
  - by destruct Hst.
Qed.

Lemma journal_bytePhase data st :
  journal config st → journal config (bytePhase config data st).
Proof.
  intros Hst. unfold bytePhase.
  assert (journal config
            (setCurrentSize
               (currentSize st + getStringByteSize (JSON_stringify data)) st))
    as Hsized by (by destruct Hst).
  destruct (exceeds _ _); [|done]. by apply journal_writeBatchToFile.
Qed.

Lemma journal_fold records st :
  journal config st →
  journal config
    (fold_left (λ st data, addContentOrSplit countTokens config data st)
       records st).
Proof.
  revert st. induction records as [|data records IH]; intros st Hst; [done|].
  cbn [fold_left]. apply IH. unfold addContentOrSplit.
  by apply journal_bytePhase, journal_tokenPhase.
Qed.

Lemma journal_run records : journal config (run countTokens config records).
Proof.
  unfold run.
  assert (journal config initialState) as Hinit by (by split).
  pose proof (journal_fold records initialState Hinit) as Hfold.
  destruct (0 <? _)%nat; [|done]. by apply journal_writeBatchToFile.
Qed.

(** The output files are numbered from 1 in the order they are written,
    under the configured stem, and the counter ends one above their
    number. *)
Theorem files_numbered_in_order records :
  fileCounter (run countTokens config records) =
    Z.of_nat (List.length (written (run countTokens config records))) + 1 ∧
  ∀ i f, written (run countTokens config records) !! i = Some f →
         path f = fileName config (Z.of_nat i + 1).
Proof. by destruct (journal_run records). Qed.

(** No two files of a run have the same path: no file written is
    overwritten by a later one. *)
Theorem paths_pairwise_distinct records :
  NoDup (map path (written (run countTokens config records))).
Proof.
  destruct (journal_run records) as [_ Hpaths _].
  apply NoDup_alt. intros i j name Hi Hj.
  apply list_lookup_fmap_Some in Hi as (f & -> & Hf).
  apply list_lookup_fmap_Some in Hj as (g & Heq & Hg).
  rewrite (Hpaths i f Hf), (Hpaths j g Hg) in Heq.
  apply fileName_inj in Heq. lia.
Qed.

(** [write] returns the path of the last file written, and the empty
    string exactly when it wrote no file. *)
Theorem write_returns_last_path records :
  write countTokens config records =
    from_option path "" (last (written (run countTokens config records))) ∧
  (write countTokens config records = "" ↔
     written (run countTokens config records) = []).
Proof.
  destruct (journal_run records) as [_ Hpaths Hlast]. unfold write.
  split; [done|]. rewrite Hlast. split.
  - destruct (written _) as [|f files] eqn:Hwritten using rev_ind; [done|].
    rewrite last_snoc. cbn [from_option]. intros Hempty.
    rewrite (Hpaths (List.length files) f) in Hempty.
    + by apply fileName_nonempty in Hempty.
    + by rewrite lookup_app_r, Nat.sub_diag.
  - by intros ->.
Qed.

End WriterJournal.

(** ** The stem of the file names *)

Lemma eqb_longer c s : String.eqb (String c (s +:+ ".json")) ".json" = false.
Proof.
  apply String.eqb_neq. intros Heq.
  apply (f_equal String.length) in Heq. cbn [String.length] in Heq.
  rewrite length_append in Heq. simpl in Heq. lia.
Qed.

Lemma stripJsonSuffix_strips stem : stripJsonSuffix (stem +:+ ".json") = stem.
Proof.
  induction stem as [|c stem IH]; [done|].
  change (String c stem +:+ ".json") with (String c (stem +:+ ".json")).
  cbn [stripJsonSuffix]. by rewrite eqb_longer, IH.
Qed.

Lemma stripJsonSuffix_keeps str :
  (∀ stem, str ≠ stem +:+ ".json") → stripJsonSuffix str = str.
Proof.
  induction str as [|c str IH]; [done|]. intros Hother.
  cbn [stripJsonSuffix].
  destruct (String.eqb (String c str) ".json") eqn:Heq.
  - apply String.eqb_eq in Heq. by destruct (Hother "").
  - f_equal. apply IH. intros stem ->. by destruct (Hother (String c stem)).
Qed.

(** The configured output name may carry the extension or not: one
    final ".json" is removed from it, nothing else, so that "out.json" and
    "out" name the same files "out-1.json", "out-2.json", ... *)
Theorem extension_of_stem_optional config stem n :
  (outputFileName config = stem +:+ ".json" →
     fileName config n = stem +:+ "-" +:+ numberToString n +:+ ".json") ∧
  ((∀ s, outputFileName config ≠ s +:+ ".json") →
     fileName config n =
       outputFileName config +:+ "-" +:+ numberToString n +:+ ".json").
Proof.
  unfold fileName. split.
  - intros ->. by rewrite stripJsonSuffix_strips.
  - intros Hother. by rewrite stripJsonSuffix_keeps.
Qed.

(** ** A run without limits *)

Section Unlimited.

Variable countTokens : string → Z.
Variable config : Config.
Hypothesis no_token_limit : maxTokens config = None.
Hypothesis no_byte_limit : maxBytes config = None.

Lemma unlimited_fold records st :
  let st' :=
    fold_left (λ st data, addContentOrSplit countTokens config data st)
      records st in
  currentResults st' = currentResults st ++ records ∧
  written st' = written st.
Proof.
  revert st. induction records as [|data records IH]; intros st.
  - cbn [fold_left]. by rewrite app_nil_r.
  - cbn [fold_left].
    rewrite (addContentOrSplit_fits countTokens config data st)
      by (by rewrite ?no_byte_limit).
    destruct (IH {| nextFileNameString := nextFileNameString st;
                    currentResults := currentResults st ++ [data];
                    currentSize := currentSize st + recordBytes data;
                    fileCounter := fileCounter st;
                    estimatedTokens :=
                      estimatedTokens st + countTokens (JSON_stringify data);
                    written := written st |}) as [Hbatch Hwritten].
    cbn [currentResults written] in *.
    by rewrite Hbatch, Hwritten, <- app_assoc.
Qed.

(** Without a token limit and without a byte limit [write] puts all the
    records, in input order, into one file numbered 1; with no record it
    writes no file. *)
Theorem unlimited_run_one_file records :
  written (run countTokens config records) =
    match records with
    | [] => []
    | _ => [{| path := fileName config 1; items := records |}]
    end.
Proof.
  unfold run.
  destruct (unlimited_fold records initialState) as [Hbatch Hwritten].
  cbn [currentResults written initialState app] in *.
  destruct (0 <? _)%nat eqn:Hlen.
  - cbn [written writeBatchToFile]. rewrite Hbatch, Hwritten.
    unfold nextFileName.
    assert (fileCounter
              (fold_left
                 (λ st data, addContentOrSplit countTokens config data st)
                 records initialState) = 1) as ->.
    { pose proof (journal_fold countTokens config records initialState)
        as Hjournal.
      destruct Hjournal as [Hcounter _ _]; [by split|].
      by rewrite Hcounter, Hwritten. }
    destruct records; [|done]. by rewrite Hbatch in Hlen.
  - rewrite Hbatch in Hlen. rewrite Hwritten.
    by destruct records.
Qed.

End Unlimited.

(** ** Files are not empty when every record has a token count *)

Section Counted.

Variable countTokens : string → Z.
Variable config : Config.

Local Abbreviation counted data :=
  (is_Some (isWithinTokenLimit countTokens (JSON_stringify data)
              (tokenLimit config))).

Lemma tokenPhase_nonempty data st :
  counted data →
  Forall (λ f, items f ≠ []) (written st) →
  currentResults (tokenPhase countTokens config data st) ≠ [] ∧
  Forall (λ f, items f ≠ [])
    (written (tokenPhase countTokens config data st)).
Proof.
  intros [tokenCount Hcount] Hfiles. unfold tokenPhase. rewrite Hcount.
  destruct (overTokens _ _).
  - destruct (currentResults st) as [|r batch] eqn:Hbatch.
    + cbn [List.length Nat.ltb Nat.leb]. cbn. by rewrite Hbatch.
    + cbn [List.length]. change (0 <? S _)%nat with true. cbn. split; [done|].
      apply Forall_app. split; [done|]. apply Forall_singleton. cbn.
      by rewrite Hbatch.
  - cbn. split; [|done]. by destruct (currentResults st).
Qed.

Lemma bytePhase_nonempty data st :
  currentResults st ≠ [] →
  Forall (λ f, items f ≠ []) (written st) →
  Forall (λ f, items f ≠ []) (written (bytePhase config data st)).
Proof.
  intros Hbatch Hfiles. unfold bytePhase. destruct (exceeds _ _); [|done].
  cbn. apply Forall_app. split; [done|]. by apply Forall_singleton.
Qed.

Lemma counted_fold records st :
  Forall (λ data, counted data) records →
  Forall (λ f, items f ≠ []) (written st) →
  Forall (λ f, items f ≠ [])
    (written
       (fold_left (λ st data, addContentOrSplit countTokens config data st)
          records st)).
Proof.
  intros Hrecords. revert st.
  induction Hrecords as [|data records Hdata _ IH]; intros st Hfiles; [done|].
  cbn [fold_left]. apply IH. unfold addContentOrSplit.
  destruct (tokenPhase_nonempty data st Hdata Hfiles) as [Hbatch Hfiles'].
  by apply bytePhase_nonempty.
Qed.

(** When the token counter gives a number for every record, no file
    written is empty: each holds at least one record. *)
Theorem counted_records_no_empty_file records :
  Forall (λ data, counted data) records →
  Forall (λ f, items f ≠ []) (written (run countTokens config records)).
Proof.
  intros Hrecords. unfold run.
  pose proof (counted_fold records initialState Hrecords (Forall_nil_2 _))
    as Hfiles.
  destruct (0 <? _)%nat eqn:Hlen; [|done].
  cbn. apply Forall_app. split; [done|]. apply Forall_singleton. cbn.
  intros Hempty. by rewrite Hempty in Hlen.
Qed.

End Counted.

(** ** The token estimate and the tokens of a file *)

Lemma batchTokens_snoc countTokens batch data :
  batchTokens countTokens (batch ++ [data]) =
    batchTokens countTokens batch + countTokens (JSON_stringify data).
Proof. induction batch as [|r batch IH]; simpl; lia. Qed.

Section TokenCeiling.

Variable countTokens : string → Z.
Variable config : Config.
Variable T : Z.
Hypothesis ceiling : maxTokens config = Some T.
Hypothesis ceiling_positive : 0 < T.
Hypothesis counts_nonneg : ∀ s, 0 ≤ countTokens s.

Local Abbreviation tokensKept := (tokensWithin countTokens T).

Lemma numeric_count_within data tokenCount :
  isWithinTokenLimit countTokens (JSON_stringify data) (tokenLimit config) =
    Some tokenCount →
  0 ≤ tokenCount ≤ T ∧ tokenCount = countTokens (JSON_stringify data).
Proof.
  unfold isWithinTokenLimit, tokenLimit. rewrite ceiling.
  pose proof (counts_nonneg (JSON_stringify data)) as Hnonneg.
  destruct (T =? 0) eqn:Hzero; [lia|].
  destruct (0 <? _) eqn:Hpos; destruct (T <? _) eqn:Hover;
    cbn [andb]; intros [= <-]; lia.
Qed.

Lemma tokensKept_flush st :
  tokensKept st → tokensKept (writeBatchToFile config st).
Proof.
  intros (Hest & Hbatch & Hfiles). split; [done|]. split.
  - simpl. assert (0 ≤ (T + 1) / 2) by (apply Z.div_pos; lia). lia.
  - simpl. apply Forall_app. split; [done|]. apply Forall_singleton. simpl. lia.
Qed.

Lemma tokensKept_tokenPhase data st :
  tokensKept st → tokensKept (tokenPhase countTokens config data st).
Proof.
  intros Hst. unfold tokenPhase.
  destruct (isWithinTokenLimit _ _ _) as [tokenCount|] eqn:Hcount; [|done].
  destruct (numeric_count_within data tokenCount Hcount) as [Hrange ->].
  set (n := countTokens (JSON_stringify data)) in *.
  assert (n - n / 2 ≤ (T + 1) / 2) as Hhalf.
  { assert (n - n / 2 = (n + 1) / 2) as ->.
    { pose proof (Z.div_mod n 2). pose proof (Z.mod_pos_bound n 2).
      pose proof (Z.div_mod (n + 1) 2).
      pose proof (Z.mod_pos_bound (n + 1) 2). lia. }
    apply Z.div_le_mono; lia. }
  assert (0 ≤ n / 2 ≤ T) as Hhalved.
  { split; [apply Z.div_pos; lia|].
    pose proof (Z.div_mod n 2). pose proof (Z.mod_pos_bound n 2). lia. }
  unfold overTokens. rewrite ceiling.
  destruct (T <? estimatedTokens st + n) eqn:Hover.
  - assert (tokensKept
              (if (0 <? List.length (currentResults st))%nat
               then writeBatchToFile config st else st)) as Hkept.
    { destruct (0 <? _)%nat; [by apply tokensKept_flush|done]. }
    assert (currentResults
              (if (0 <? List.length (currentResults st))%nat
               then writeBatchToFile config st else st) = []) as Hempty.
    { destruct (currentResults st) eqn:Hbatch; [exact Hbatch|done]. }
    destruct Hkept as (_ & _ & Hfiles).
    split; [done|]. split; [|done].
    cbn [currentResults push setEstimatedTokens estimatedTokens].
    rewrite Hempty. simpl. fold n. lia.
  - destruct Hst as (Hest & Hbatch & Hfiles).
    split; [simpl; lia|]. split; [|done].
    simpl. rewrite batchTokens_snoc. fold n. lia.
Qed.

Lemma tokensKept_bytePhase data st :
  tokensKept st → tokensKept (bytePhase config data st).
Proof.
  intros Hst. unfold bytePhase.
  assert (tokensKept
            (setCurrentSize
               (currentSize st + getStringByteSize (JSON_stringify data)) st))
    as Hsized by done.
  destruct (exceeds _ _); [|done]. by apply tokensKept_flush.
Qed.

Lemma tokensKept_fold records st :
  tokensKept st →
  tokensKept
    (fold_left (λ st data, addContentOrSplit countTokens config data st)
       records st).
Proof.
  revert st. induction records as [|data records IH]; intros st Hst; [done|].
  cbn [fold_left]. apply IH. unfold addContentOrSplit.
  by apply tokensKept_bytePhase, tokensKept_tokenPhase.
Qed.

(** With a positive token ceiling [T] the running estimate stays between
    0 and [T], and the records of any output file have at most
    [T + (T + 1) / 2] tokens together: the estimate restarts at half the
    count of the record that overflowed, so up to half a ceiling is not
    counted. *)
Theorem tokens_of_a_file_bounded records :
  (0 ≤ estimatedTokens (run countTokens config records) ≤ T) ∧
  ∀ f, f ∈ written (run countTokens config records) →
       batchTokens countTokens (items f) ≤ T + (T + 1) / 2.
Proof.
  assert (tokensKept (run countTokens config records))
    as (Hest & _ & Hfiles).
  { unfold run.
    assert (tokensKept initialState) as Hinit.
    { split; [simpl; lia|]. split; [|done]. simpl.
      assert (0 ≤ (T + 1) / 2) by (apply Z.div_pos; lia). lia. }
    pose proof (tokensKept_fold records initialState Hinit) as Hfold.
    destruct (0 <? _)%nat; [by apply tokensKept_flush|done]. }
  split; [done|]. by apply Forall_forall.
Qed.

End TokenCeiling.

(** ** Greedy splitting on bytes *)

Lemma exceeds_mono m n l : m ≤ n → exceeds n l = false → exceeds m l = false.
Proof.
  destruct l as [B|]; [|done]. rewrite !exceeds_false. intros Hle Hn.
  rewrite Zle_Qle in Hle. lra.
Qed.

Lemma batchBytes_app_le init rest : batchBytes init ≤ batchBytes (init ++ rest).
Proof.
  induction init as [|r init IH]; simpl; [apply batchBytes_nonneg|]. lia.
Qed.

Section Greedy.

Variable countTokens : string → Z.
Variable config : Config.
Hypothesis no_token_limit : maxTokens config = None.
Hypothesis ceiling_nonneg : exceeds 0 (maxBytes config) = false.

Local Abbreviation greedy := (cutGreedily (maxBytes config)).

Lemma greedy_addContentOrSplit data st :
  greedy st → greedy (addContentOrSplit countTokens config data st).
Proof.
  intros (Hsize & Hwithin & Hfiles).
  destruct (exceeds (currentSize st + recordBytes data) (maxBytes config))
    eqn:Hover.
  - rewrite addContentOrSplit_flushes by done.
    split; [done|]. split; [done|]. cbn [written].
    apply Forall_app. split; [done|]. apply Forall_singleton. split.
    + unfold full. cbn [items]. by rewrite batchBytes_snoc, <- Hsize.
    + exists (currentResults st), data. split; [done|]. by rewrite <- Hsize.
  - rewrite addContentOrSplit_fits by done.
    split; [|done]. cbn [currentSize currentResults].
    rewrite batchBytes_snoc. lia.
Qed.

Lemma greedy_fold records st :
  greedy st →
  greedy
    (fold_left (λ st data, addContentOrSplit countTokens config data st)
       records st).
Proof.
  revert st. induction records as [|data records IH]; intros st Hst; [done|].
  cbn [fold_left]. by apply IH, greedy_addContentOrSplit.
Qed.

(** Without a token limit the files are cut greedily on the byte
    counter: every file without its last record is within the byte
    ceiling, and every file but the last one written is over it, so no file
    is closed before the ceiling is passed. *)
Theorem files_cut_greedily records i f :
  written (run countTokens config records) !! i = Some f →
  closedByLast (maxBytes config) f ∧
  (S i < List.length (written (run countTokens config records)) →
     full (maxBytes config) f)%nat.
Proof.
  unfold run.
  assert (greedy initialState) as Hinit by (by split).
  pose proof (greedy_fold records initialState Hinit)
    as (Hsize & Hwithin & Hfiles).
  set (st := fold_left _ records initialState) in *.
  rewrite Forall_lookup in Hfiles.
  destruct (0 <? _)%nat eqn:Hlen.
  - cbn [written writeBatchToFile]. rewrite length_app. cbn [List.length].
    intros [Hold | [Hi Hnew]]%lookup_app_Some.
    + destruct (Hfiles i f Hold). split; [done|]. done.
    + destruct (i - List.length (written st))%nat as [|k] eqn:Hk; [|done].
      injection Hnew as <-. split; [|lia].
      destruct (currentResults st) as [|r batch] eqn:Hbatch using rev_ind;
        [done|].
      exists batch, r. split; [done|]. eapply exceeds_mono; [|done].
      rewrite Hsize. apply batchBytes_app_le.
  - intros Hold. destruct (Hfiles i f Hold). split; [done|]. done.
Qed.

End Greedy.

(** * Further properties of the extractor *)

(** ** Siblings and the order of the fragments *)

Lemma forEach_after {A : Type} (visit : A → gset string → result acc)
    xs pre seen :
  forEach visit xs (pre, seen) = after pre <$> forEach visit xs ([], seen).
Proof.
  revert pre seen. induction xs as [|x xs IH]; intros pre seen.
  - cbn. unfold after. cbn. by rewrite app_nil_r.
  - cbn [forEach fst snd]. destruct (visit x seen) as [[out seen1]|e]; [|done].
    cbn [mbind result_bind]. rewrite (IH (pre ++ out)), (IH ([] ++ out)).
    destruct (forEach visit xs ([], seen1)) as [[below seen2]|e]; [|done].
    cbn. unfold after. cbn. by rewrite app_assoc.
Qed.

Lemma forEach_cons_Ok {A : Type} (visit : A → gset string → result acc)
    x xs seen out seen' :
  forEach visit (x :: xs) ([], seen) = Ok (out, seen') ↔
  ∃ first seen1 rest,
    visit x seen = Ok (first, seen1) ∧
    forEach visit xs ([], seen1) = Ok (rest, seen') ∧
    out = first ++ rest.
Proof.
  cbn [forEach fst snd]. split.
  - destruct (visit x seen) as [[first seen1]|e]; [|done].
    cbn [mbind result_bind]. rewrite forEach_after.
    destruct (forEach visit xs ([], seen1)) as [[rest seen2]|e] eqn:Hrest;
      [|done].
    unfold after. cbn [fmap result_fmap fst snd]. intros [= <- <-].
    by exists first, seen1, rest.
  - intros (first & seen1 & rest & -> & Hrest & ->).
    cbn [mbind result_bind]. rewrite forEach_after, Hrest. done.
Qed.

Lemma forEach_app_Ok {A : Type} (visit : A → gset string → result acc)
    xs ys seen out seen' :
  forEach visit (xs ++ ys) ([], seen) = Ok (out, seen') ↔
  ∃ first seen1 rest,
    forEach visit xs ([], seen) = Ok (first, seen1) ∧
    forEach visit ys ([], seen1) = Ok (rest, seen') ∧
    out = first ++ rest.
Proof.
  revert seen out. induction xs as [|x xs IH]; intros seen out.
  - cbn [app forEach]. split.
    + intros Hys. by exists [], seen, out.
    + by intros (first & seen1 & rest & [= <- <-] & Hys & ->).
  - rewrite <- app_comm_cons, forEach_cons_Ok. split.
    + intros (head & seen1 & tail & Hhead & Htail & ->).
      apply IH in Htail as (first & seen2 & rest & Hfirst & Hrest & ->).
      exists (head ++ first), seen2, rest. split; [|by rewrite app_assoc].
      apply forEach_cons_Ok. by exists head, seen1, first.
    + intros (first & seen2 & rest & Hfirst & Hrest & ->).
      apply forEach_cons_Ok in Hfirst
        as (head & seen1 & middle & Hhead & Hmiddle & ->).
      exists head, seen1, (middle ++ rest).
      split; [done|]. split; [|by rewrite app_assoc].
      apply IH. by exists middle, seen2, rest.
Qed.

(** The fragments of a run of siblings are those of the first siblings
    followed by those of the next ones, which start from the set the first
    ones left: the traversal is in document order. *)
Theorem siblings_in_document_order xs ys seen out seen' :
  forEach extractContentRecursively (xs ++ ys) ([], seen) = Ok (out, seen') ↔
  ∃ first seen1 rest,
    forEach extractContentRecursively xs ([], seen) = Ok (first, seen1) ∧
    forEach extractContentRecursively ys ([], seen1) = Ok (rest, seen') ∧
    out = first ++ rest.
Proof. apply forEach_app_Ok. Qed.

Lemma visitChildren_after obj pre seen :
  visitChildren obj (pre, seen) = after pre <$> visitChildren obj ([], seen).
Proof.
  unfold visitChildren.
  destruct obj as [| | | | |items|props]; cbn [mbind result_bind];
    try (unfold after; cbn; by rewrite app_nil_r).
  - rewrite forEach_after.
    destruct (forEach extractContentRecursively items ([], seen))
      as [[first seen1]|e]; [|done].
    cbn [fmap result_fmap mbind result_bind]. unfold after at 1.
    cbn [fst snd]. rewrite forEach_after, (forEach_after _ _ first).
    destruct (forEach extractContentRecursively items ([], seen1))
      as [[second seen2]|e]; [|done].
    unfold after. cbn. by rewrite app_assoc.
  - apply forEach_after.
Qed.

Lemma composite_own_then_children obj seen out seen' :
  isComposite obj = true →
  JSON_stringify obj ∉ seen →
  extractContentRecursively obj seen = Ok (out, seen') →
  ∃ own seen1 below,
    ownFragments obj ([], {[JSON_stringify obj]} ∪ seen) = Ok (own, seen1) ∧
    visitChildren obj ([], seen1) = Ok (below, seen') ∧
    out = own ++ below.
Proof.
  intros Hcomposite Hnew. rewrite extract_composite by done.
  rewrite bool_decide_eq_false_2 by done.
  destruct (ownFragments _ _) as [[own seen1]|e] eqn:Hown; [|done].
  cbn [mbind result_bind]. rewrite visitChildren_after.
  destruct (visitChildren obj ([], seen1)) as [[below seen2]|e] eqn:Hbelow;
    [|done].
  unfold after. cbn [fmap result_fmap fst snd]. intros [= <- <-].
  by exists own, seen1, below.
Qed.

(** The fragments of a node come first, those of its descendants after
    them: a composite node that is processed returns its own text, href and
    src fragments followed by what the visit of its children returns from
    the set the node left. *)
Theorem own_fragments_before_descendants obj seen out seen' :
  isComposite obj = true →
  JSON_stringify obj ∉ seen →
  extractContentRecursively obj seen = Ok (out, seen') →
  ∃ own seen1 below,
    ownFragments obj ([], {[JSON_stringify obj]} ∪ seen) = Ok (own, seen1) ∧
    visitChildren obj ([], seen1) = Ok (below, seen') ∧
    out = own ++ below.
Proof. apply composite_own_then_children. Qed.

(** ** The second pass over an array *)

Lemma forEach_grows items st st' :
  forEach extractContentRecursively items st = Ok st' → st.2 ⊆ st'.2.
Proof.
  revert st. induction items as [|x items IH]; intros st; cbn [forEach].
  - by intros [= <-].
  - destruct (extractContentRecursively x st.2) as [[out seen1]|e] eqn:Hx;
      [|done].
    cbn [mbind result_bind]. intros Hrest%IH. cbn [snd] in Hrest.
    apply extract_grows in Hx. by etrans.
Qed.

Lemma forEach_marks items st st' :
  forEach extractContentRecursively items st = Ok st' →
  ∀ x, x ∈ items → isComposite x = true → JSON_stringify x ∈ st'.2.
Proof.
  revert st. induction items as [|y items IH]; intros st; cbn [forEach].
  - intros _ x Hx. by apply elem_of_nil in Hx.
  - destruct (extractContentRecursively y st.2) as [[out seen1]|e] eqn:Hy;
      [|done].
    cbn [mbind result_bind]. intros Hrest x [->|Hx]%elem_of_cons Hcomposite.
    + apply forEach_grows in Hrest. cbn [snd] in Hrest. apply Hrest.
      by eapply extract_marks_node.
    + by eapply IH.
Qed.

Lemma forEach_revisit items st :
  (∀ x, x ∈ items → isComposite x = true → JSON_stringify x ∈ st.2) →
  forEach extractContentRecursively items st = Ok st.
Proof.
  induction items as [|x items IH]; intros Hmarked; [done|].
  cbn [forEach].
  assert (extractContentRecursively x st.2 = Ok ([], st.2)) as ->.
  { destruct (isComposite x) eqn:Hcomposite.
    - rewrite extract_composite by done.
      rewrite bool_decide_eq_true_2; [done|].
      apply Hmarked; [apply list_elem_of_here|done].
    - by apply extract_atom. }
  cbn [mbind result_bind]. rewrite app_nil_r.
  destruct st as [extracted seen]. apply IH.
  intros y Hy. apply Hmarked. by apply list_elem_of_further.
Qed.

Lemma array_single_pass items seen :
  extractContentRecursively (VArr items) seen =
    if bool_decide (JSON_stringify (VArr items) ∈ seen) then Ok ([], seen)
    else forEach extractContentRecursively items
           ([], {[JSON_stringify (VArr items)]} ∪ seen).
Proof.
  rewrite extract_composite by done. destruct (bool_decide _); [done|].
  change (ownFragments (VArr items)
            ([], {[JSON_stringify (VArr items)]} ∪ seen))
    with (Ok (A := acc) ([], {[JSON_stringify (VArr items)]} ∪ seen)).
  cbn [mbind result_bind]. unfold visitChildren.
  destruct (forEach extractContentRecursively items _) as [st|e] eqn:Hfirst;
    [|done].
  cbn [mbind result_bind]. apply forEach_revisit.
  by apply (forEach_marks items
              ([], {[JSON_stringify (VArr items)]} ∪ seen) st).
Qed.

(** An array has no fragment of its own, and the second pass over its
    elements (through [Object.values]) adds nothing, since every composite
    element is in the set after the first: the result is that of one pass
    over the elements, in order. *)
Theorem array_elements_count_once items seen :
  extractContentRecursively (VArr items) seen =
    if bool_decide (JSON_stringify (VArr items) ∈ seen) then Ok ([], seen)
    else forEach extractContentRecursively items
           ([], {[JSON_stringify (VArr items)]} ∪ seen).
Proof. apply array_single_pass. Qed.

(** ** The text of a node *)

Lemma length_trimStart s : (String.length (trimStart s) ≤ String.length s)%nat.
Proof.
  induction s as [|c s IH]; [done|]. cbn [trimStart].
  destruct (isWhiteSpace c); cbn [String.length]; lia.
Qed.

Lemma length_trimEnd s : (String.length (trimEnd s) ≤ String.length s)%nat.
Proof.
  induction s as [|c s IH]; [done|]. cbn [trimEnd].
  destruct (trimEnd s) as [|d rest].
  - destruct (isWhiteSpace c); cbn [String.length]; lia.
  - cbn [String.length] in *. lia.
Qed.

Lemma length_trim s : (String.length (trim s) ≤ String.length s)%nat.
Proof.
  unfold trim. pose proof (length_trimEnd (trimStart s)).
  pose proof (length_trimStart s). lia.
Qed.

Lemma length_escapeChar c : (1 ≤ String.length (escapeChar c))%nat.
Proof.
  unfold escapeChar.
  repeat match goal with
    | |- context [if ?b then _ else _] => destruct b
    end; rewrite ?length_append; cbn [String.length]; lia.
Qed.

Lemma length_escapeString s :
  (String.length s ≤ String.length (escapeString s))%nat.
Proof.
  induction s as [|c s IH]; [done|]. cbn [escapeString String.length].
  rewrite length_append. pose proof (length_escapeChar c). lia.
Qed.

Lemma length_quoteJSONString s :
  (String.length s + 2 ≤ String.length (quoteJSONString s))%nat.
Proof.
  unfold quoteJSONString, dquote. rewrite !length_append.
  cbn [String.length]. pose proof (length_escapeString s). lia.
Qed.

Lemma JSON_stringify_object props :
  JSON_stringify (VObj props) =
    "{" +:+ join "," (objectMembers props) +:+ "}".
Proof.
  reflexivity.
Qed.

Lemma lookupProp_member k props text :
  lookupProp k props = VStr text →
  ∃ m, m ∈ objectMembers props ∧
       (String.length text + 2 < String.length m)%nat.
Proof.
  induction props as [|[k' v] props IH]; [done|]. cbn [lookupProp].
  destruct (String.eqb k k').
  - intros ->. exists (quoteJSONString k' +:+ ":" +:+ quoteJSONString text).
    split; [apply list_elem_of_here|].
    rewrite !length_append.
    pose proof (length_quoteJSONString text).
    pose proof (length_quoteJSONString k'). cbn [String.length]. lia.
  - intros (m & Hm & Hlen)%IH. exists m. split; [|done].
    destruct v; cbn [objectMembers]; try done;
      by apply list_elem_of_further.
Qed.

Lemma length_join sep parts m :
  m ∈ parts → (String.length m ≤ String.length (join sep parts))%nat.
Proof.
  induction parts as [|p parts IH]; intros Hm; [by apply elem_of_nil in Hm|].
  cbn [join]. destruct parts as [|q parts].
  - apply list_elem_of_singleton in Hm as ->. done.
  - rewrite !length_append.
    apply elem_of_cons in Hm as [->|Hm]; [lia|].
    specialize (IH Hm). lia.
Qed.

(** The serialization of an object is longer than its text, so the
    trimmed text is never the key of the node it belongs to. *)
Lemma trim_text_not_key props text :
  lookupProp "text" props = VStr text →
  trim text ≠ JSON_stringify (VObj props).
Proof.
  intros (m & Hm & Hlen)%lookupProp_member Heq.
  apply (f_equal String.length) in Heq.
  rewrite JSON_stringify_object, !length_append in Heq.
  pose proof (length_join "," _ _ Hm). pose proof (length_trim text).
  cbn [String.length] in Heq. lia.
Qed.

Lemma extractHref_extends obj pre seen out seen' :
  extractHref obj (pre, seen) = Ok (out, seen') → ∃ more, out = pre ++ more.
Proof.
  unfold extractHref.
  destruct (getProp obj "href"); try (intros [= <- <-]; exists [];
    by rewrite app_nil_r).
  destruct (_ && _); [|intros [= <- <-]; exists []; by rewrite app_nil_r].
  destruct (toString _); [|done]. cbn [mbind result_bind].
  intros [= <- <-]. by eexists.
Qed.

Lemma extractSrc_extends obj pre seen :
  ∃ more, (extractSrc obj (pre, seen)).1 = pre ++ more.
Proof.
  unfold extractSrc.
  destruct (getProp obj "src"); try (exists []; by rewrite app_nil_r).
  destruct (_ && _); [|exists []; by rewrite app_nil_r]. by eexists.
Qed.

Lemma ownFragments_text_first props text seen own seen1 :
  lookupProp "text" props = VStr text → text ≠ "" → trim text ∉ seen →
  ownFragments (VObj props) ([], seen) = Ok (own, seen1) →
  ∃ rest, own = trim text :: rest.
Proof.
  intros Htext Hnonempty Hnew. unfold ownFragments, extractText.
  cbn [getProp]. rewrite Htext. cbn [truthy].
  apply String.eqb_neq in Hnonempty. rewrite Hnonempty.
  rewrite bool_decide_eq_true_2 by done. cbn [negb andb app].
  destruct (extractHref _ _) as [[linked seen2]|e] eqn:Hhref; [|done].
  cbn [mbind result_bind]. intros [= Hown].
  apply extractHref_extends in Hhref as [more ->].
  destruct (extractSrc_extends (VObj props) ([trim text] ++ more) seen2)
    as [image Himage].
  exists (more ++ image).
  apply (f_equal fst) in Hown. cbn [fst] in Hown.
  rewrite <- Hown. etrans; [exact Himage|]. by rewrite <- app_assoc.
Qed.

(** A node whose text is a non-empty string gives the trimmed text as its
    first fragment when the node and the trimmed text are not in the set
    yet.  The text is tested before it is trimmed: a text of white space
    only gives the empty fragment. *)
Theorem text_is_first_fragment props text seen out seen' :
  lookupProp "text" props = VStr text → text ≠ "" →
  JSON_stringify (VObj props) ∉ seen → trim text ∉ seen →
  extractContentRecursively (VObj props) seen = Ok (out, seen') →
  ∃ rest, out = trim text :: rest.
Proof.
  intros Htext Hnonempty Hnode Hnew Hrun.
  apply composite_own_then_children in Hrun
    as (own & seen1 & below & Hown & _ & ->); [|done..].
  apply (ownFragments_text_first props text) in Hown as [rest ->];
    [by exists (rest ++ below)|done|done|].
  apply not_elem_of_union. split; [|done].
  rewrite not_elem_of_singleton. by apply trim_text_not_key.
Qed.

(** ** The number of fragments *)

Lemma extractText_length obj pre seen :
  (List.length (extractText obj (pre, seen)).1 ≤ S (List.length pre))%nat.
Proof.
  unfold extractText. destruct (getProp obj "text"); cbn [fst]; try lia.
  destruct (_ && _); cbn [fst]; rewrite ?length_app; cbn [List.length]; lia.
Qed.

Lemma extractHref_length obj pre seen out seen' :
  extractHref obj (pre, seen) = Ok (out, seen') →
  (List.length out ≤ S (List.length pre))%nat.
Proof.
  unfold extractHref.
  destruct (getProp obj "href"); try (intros [= <- <-]; lia).
  destruct (_ && _); [|intros [= <- <-]; lia].
  destruct (toString _); [|done]. cbn [mbind result_bind].
  intros [= <- <-]. rewrite length_app. cbn [List.length]. lia.
Qed.

Lemma extractSrc_length obj pre seen :
  (List.length (extractSrc obj (pre, seen)).1 ≤ S (List.length pre))%nat.
Proof.
  unfold extractSrc. destruct (getProp obj "src"); cbn [fst]; try lia.
  destruct (_ && _); cbn [fst]; rewrite ?length_app; cbn [List.length]; lia.
Qed.

Lemma ownFragments_length obj seen own seen1 :
  ownFragments obj ([], seen) = Ok (own, seen1) → (List.length own ≤ 3)%nat.
Proof.
  unfold ownFragments.
  pose proof (extractText_length obj [] seen) as Htext.
  destruct (extractText obj ([], seen)) as [texts seen2].
  destruct (extractHref obj (texts, seen2)) as [[linked seen3]|e] eqn:Hhref;
    [|done].
  apply extractHref_length in Hhref. cbn [mbind result_bind].
  pose proof (extractSrc_length obj linked seen3) as Hsrc.
  intros Hown.
  assert (extractSrc obj (linked, seen3) = (own, seen1)) as Heq
    by congruence.
  rewrite Heq in Hsrc. cbn [fst snd List.length] in Htext, Hsrc. lia.
Qed.

Lemma forEach_length {A : Type} (visit : A → gset string → result acc)
    (weight : A → nat) xs pre seen out seen' :
  Forall (λ x, ∀ seen out seen',
            visit x seen = Ok (out, seen') →
            (List.length out ≤ 3 * weight x)%nat) xs →
  forEach visit xs (pre, seen) = Ok (out, seen') →
  (List.length out ≤ List.length pre + 3 * list_sum (map weight xs))%nat.
Proof.
  intros Hxs. revert pre seen.
  induction Hxs as [|x xs Hx _ IH]; intros pre seen; cbn [forEach].
  - intros [= <- <-]. apply Nat.le_add_r.
  - cbn [fst snd].
    destruct (visit x seen) as [[first seen1]|e] eqn:Hfirst; [|done].
    cbn [mbind result_bind]. intros Hrest%IH.
    apply Hx in Hfirst. rewrite length_app in Hrest.
    change (list_sum (map weight (x :: xs)))
      with (weight x + list_sum (map weight xs))%nat. lia.
Qed.

(** The extractor returns at most three fragments for each object of the
    input: a text, a link and an image; arrays and scalars give none. *)
Theorem at_most_three_fragments_per_object obj :
  ∀ seen out seen',
    extractContentRecursively obj seen = Ok (out, seen') →
    (List.length out ≤ 3 * objects obj)%nat.
Proof.
  induction obj as [obj Hatom|items IH|props IH] using value_nested_ind;
    intros seen out seen'.
  - rewrite extract_atom by done. intros [= <- <-]. cbn [List.length]. lia.
  - rewrite array_single_pass. destruct (bool_decide _).
    + intros [= <- <-]. cbn [List.length]. lia.
    + intros Hrun%(forEach_length _ objects); [|done].
      cbn [objects List.length] in *. lia.
  - rewrite extract_composite by done. destruct (bool_decide _).
    + intros [= <- <-]. cbn [List.length]. lia.
    + destruct (ownFragments _ _) as [[own seen1]|e] eqn:Hown; [|done].
      apply ownFragments_length in Hown. cbn [mbind result_bind].
      unfold visitChildren. cbn [mbind result_bind].
      intros Hrun%(forEach_length _ (λ p, objects p.2)); [|done].
      cbn [objects]. lia.
Qed.

(** * Properties of the response handler *)

Lemma orDefault_truthy v default :
  default ≠ "" → truthy (orDefault v default) = true.
Proof.
  intros Hdefault. unfold orDefault. destruct (truthy v) eqn:Hv; [done|].
  cbn [truthy]. apply negb_true_iff. by apply String.eqb_neq.
Qed.

Lemma stringOrDefault_nonempty s default :
  default ≠ "" → stringOrDefault s default ≠ "".
Proof.
  intros Hdefault. unfold stringOrDefault.
  destruct (String.eqb s "") eqn:Hs; [done|]. by apply String.eqb_neq.
Qed.

Lemma member_truthy v k : truthy v = true → member v k = Ok (getProp v k).
Proof. by destruct v. Qed.

(** A record is pushed only for a response of the documents API whose
    body carries a truthy [data.document] on which the extractor returns;
    the record has the three fields title, url and text in this order, the
    title is truthy and the url and the text are non-empty strings. *)
Theorem pushed_record_complete url body loadedUrl record :
  onResponse url body loadedUrl = Pushed record →
  includes url "documents.info" = true ∧
  (∃ jsonResponse data documentData extracted,
     body = Some jsonResponse ∧
     member jsonResponse "data" = Ok data ∧ truthy data = true ∧
     member data "document" = Ok documentData ∧
     truthy documentData = true ∧
     extract documentData = Ok extracted) ∧
  ∃ title pageUrl text,
    record =
      VObj [("title", title); ("url", VStr pageUrl); ("text", VStr text)] ∧
    truthy title = true ∧ pageUrl ≠ "" ∧ text ≠ "".
Proof.
  unfold onResponse. destruct (includes url "documents.info"); [|done].
  destruct body as [jsonResponse|]; [|done].
  destruct (harvest jsonResponse loadedUrl) as [[pushed|]|e] eqn:Hharvest;
    try done.
  intros [= ->]. split; [done|]. unfold harvest in Hharvest.
  destruct (member jsonResponse "data") as [data|e] eqn:Hdata; [|done].
  cbn [mbind result_bind] in Hharvest.
  destruct (truthy data) eqn:Htruthy; [|done]. cbn [negb] in Hharvest.
  destruct (member data "document") as [documentData|e] eqn:Hdocument;
    [|done].
  cbn [mbind result_bind] in Hharvest.
  destruct (truthy documentData) eqn:Htruthy'; [|done].
  cbn [negb] in Hharvest.
  destruct (extract documentData) as [extracted|e] eqn:Hextract; [|done].
  cbn [mbind result_bind] in Hharvest.
  rewrite member_truthy in Hharvest by done.
  cbn [mbind result_bind] in Hharvest. injection Hharvest as <-.
  split; [by exists jsonResponse, data, documentData, extracted|].
  eexists _, _, _. split; [done|].
  split; [by apply orDefault_truthy|].
  split; by apply stringOrDefault_nonempty.
Qed.

(** Every body with a truthy [data.document] that has no property named
    [toString] gives a record: the extractor returns on it, and nothing
    else in the handler can throw. *)
Theorem document_without_toString_pushed url jsonResponse data documentData
    loadedUrl :
  includes url "documents.info" = true →
  member jsonResponse "data" = Ok data → truthy data = true →
  member data "document" = Ok documentData → truthy documentData = true →
  noOwnToString documentData = true →
  ∃ record, onResponse url (Some jsonResponse) loadedUrl = Pushed record.
Proof.
  intros Hurl Hdata Htruthy Hdocument Htruthy' Hsafe.
  unfold onResponse, harvest. rewrite Hurl, Hdata.
  cbn [mbind result_bind]. rewrite Htruthy. cbn [negb].
  rewrite Hdocument. cbn [mbind result_bind]. rewrite Htruthy'. cbn [negb].
  unfold extract.
  destruct (extract_returns documentData Hsafe ∅) as [st ->].
  cbn [mbind result_bind]. rewrite member_truthy by done.
  cbn [mbind result_bind]. by eexists.
Qed.

(** * The seed URL *)

Lemma afterPrefix_Some p str rest :
  afterPrefix p str = Some rest ↔ str = p +:+ rest.
Proof.
  revert str. induction p as [|a p IH]; intros str.
  - cbn. split; [by intros [= ->]|by intros ->].
  - destruct str as [|b str]; cbn [afterPrefix]; [done|].
    destruct (Ascii.eqb a b) eqn:Hab.
    + apply Ascii.eqb_eq in Hab as ->. rewrite IH. split.
      * by intros ->.
      * by intros [= ->].
    + apply Ascii.eqb_neq in Hab. split; [done|]. by intros [= -> _].
Qed.

Lemma restThenXml_spec str :
  restThenXml str = true ↔
  ∃ middle, str = middle +:+ ".xml" ∧ singleLine middle = true.
Proof.
  split.
  - induction str as [|c str IH]; [done|]. cbn [restThenXml].
    intros [Hend | [Hc Hrest]%andb_prop]%orb_prop.
    + apply String.eqb_eq in Hend. by exists "".
    + destruct (IH Hrest) as (middle & -> & Hline).
      exists (String c middle). split; [done|].
      cbn [singleLine]. by rewrite Hc, Hline.
  - intros (middle & -> & Hline).
    induction middle as [|c middle IH]; [done|].
    cbn [singleLine] in Hline. apply andb_prop in Hline as [Hc Hline].
    change (String c middle +:+ ".xml") with (String c (middle +:+ ".xml")).
    cbn [restThenXml]. rewrite Hc, (IH Hline). apply orb_true_r.
Qed.

(** The seed is taken for a sitemap exactly when it contains "sitemap"
    followed, without a line break in between, by a final ".xml". *)
Theorem sitemap_urls url :
  isUrlASitemap url = true ↔
  ∃ before middle,
    url = before +:+ "sitemap" +:+ middle +:+ ".xml" ∧
    singleLine middle = true.
Proof.
  split.
  - induction url as [|c url IH].
    + cbn. done.
    + cbn [isUrlASitemap]. intros [Hhere | Hlater]%orb_prop.
      * destruct (afterPrefix "sitemap" (String c url)) as [rest|] eqn:Hrest;
          [|done].
        apply afterPrefix_Some in Hrest.
        apply restThenXml_spec in Hhere as (middle & -> & Hline).
        by exists "", middle.
      * destruct (IH Hlater) as (before & middle & -> & Hline).
        by exists (String c before), middle.
  - intros (before & middle & -> & Hline).
    assert (isUrlASitemap ("sitemap" +:+ middle +:+ ".xml") = true) as Hhere.
    { change (isUrlASitemap ("sitemap" +:+ middle +:+ ".xml"))
        with (restThenXml (middle +:+ ".xml") ||
              isUrlASitemap ("itemap" +:+ middle +:+ ".xml")).
      apply orb_true_intro. left. apply restThenXml_spec. by exists middle. }
    induction before as [|c before IH]; [done|].
    change (String c before +:+ "sitemap" +:+ middle +:+ ".xml")
      with (String c (before +:+ "sitemap" +:+ middle +:+ ".xml")).
    cbn [isUrlASitemap]. rewrite IH. apply orb_true_r.
Qed.

(** * Instances of the properties above *)

Lemma unlimited_run_one_file_witness :
  maxTokens (limits None None) = None ∧
  maxBytes (limits None None) = None ∧
  written (run oneTokenPerByte (limits None None) fourRecords) =
    [{| path := "output-1.json"; items := fourRecords |}].
Proof.
  split; [reflexivity|]. split; [reflexivity|].
  exact (unlimited_run_one_file oneTokenPerByte (limits None None)
           eq_refl eq_refl fourRecords).
Defined.

Lemma fourRecords_counted :
  Forall
    (λ data,
       is_Some (isWithinTokenLimit oneTokenPerByte (JSON_stringify data)
                  (tokenLimit (limits (Some (85 # 1048576)) (Some 50)))))
    fourRecords.
Proof.
  unfold fourRecords.
  repeat (apply Forall_cons_2; [exists 37; vm_compute; reflexivity|]).
  apply Forall_nil_2.
Qed.

Lemma counted_records_no_empty_file_witness :
  Forall
    (λ data,
       is_Some (isWithinTokenLimit oneTokenPerByte (JSON_stringify data)
                  (tokenLimit (limits (Some (85 # 1048576)) (Some 50)))))
    fourRecords ∧
  Forall (λ f, items f ≠ [])
    (written
       (run oneTokenPerByte (limits (Some (85 # 1048576)) (Some 50))
          fourRecords)).
Proof.
  split; [exact fourRecords_counted|].
  exact (counted_records_no_empty_file oneTokenPerByte
           (limits (Some (85 # 1048576)) (Some 50)) fourRecords
           fourRecords_counted).
Defined.

Lemma tokens_of_a_file_bounded_witness :
  maxTokens (limits None (Some 50)) = Some 50 ∧
  (0 ≤ estimatedTokens (run oneTokenPerByte (limits None (Some 50))
                          fourRecords) ≤ 50) ∧
  ∀ f, f ∈ written (run oneTokenPerByte (limits None (Some 50)) fourRecords) →
       batchTokens oneTokenPerByte (items f) ≤ 50 + (50 + 1) / 2.
Proof.
  split; [reflexivity|].
  apply (tokens_of_a_file_bounded oneTokenPerByte (limits None (Some 50)) 50
           eq_refl).
  - reflexivity.
  - exact getStringByteSize_nonneg.
Defined.

Lemma files_cut_greedily_witness :
  written (run oneTokenPerByte (limits (Some (85 # 1048576)) None)
             fourRecords) !! 0%nat =
    Some {| path := "output-1.json";
            items := [pageRecord "T1" "U1" "X1"; pageRecord "T2" "U2" "X2";
                      pageRecord "T3" "U3" "X3"] |} ∧
  closedByLast (maxBytes (limits (Some (85 # 1048576)) None))
    {| path := "output-1.json";
       items := [pageRecord "T1" "U1" "X1"; pageRecord "T2" "U2" "X2";
                 pageRecord "T3" "U3" "X3"] |} ∧
  full (maxBytes (limits (Some (85 # 1048576)) None))
    {| path := "output-1.json";
       items := [pageRecord "T1" "U1" "X1"; pageRecord "T2" "U2" "X2";
                 pageRecord "T3" "U3" "X3"] |}.
Proof.
  assert (written (run oneTokenPerByte (limits (Some (85 # 1048576)) None)
                     fourRecords) !! 0%nat =
            Some {| path := "output-1.json";
                    items := [pageRecord "T1" "U1" "X1";
                              pageRecord "T2" "U2" "X2";
                              pageRecord "T3" "U3" "X3"] |}) as Hfirst
    by (vm_compute; reflexivity).
  split; [exact Hfirst|].
  destruct (files_cut_greedily oneTokenPerByte
              (limits (Some (85 # 1048576)) None) eq_refl eq_refl
              fourRecords 0%nat _ Hfirst) as [Hclosed Hfull].
  split; [exact Hclosed|]. apply Hfull. vm_compute. lia.
Defined.

Lemma extract_run obj out :
  extract obj = Ok out →
  extractContentRecursively obj ∅ = Ok (out, seenAfter obj).
Proof.
  unfold extract, seenAfter.
  destruct (extractContentRecursively obj ∅) as [[fragments seen]|e];
    [|done].
  cbn [mbind result_bind fst snd]. by intros [= ->].
Qed.

Lemma blankText_run :
  extractContentRecursively blankText ∅ = Ok ([""], seenAfter blankText).
Proof. apply extract_run. vm_compute. reflexivity. Qed.

Lemma own_fragments_before_descendants_witness :
  extractContentRecursively linkedImage ∅ =
    Ok (["Hi"; "Hi: https://x.test"; "Image: https://x.test/img.png"],
        seenAfterLinkedImage) ∧
  ∃ own seen1 below,
    ownFragments linkedImage ([], {[JSON_stringify linkedImage]} ∪ ∅) =
      Ok (own, seen1) ∧
    visitChildren linkedImage ([], seen1) = Ok (below, seenAfterLinkedImage) ∧
    ["Hi"; "Hi: https://x.test"; "Image: https://x.test/img.png"] =
      own ++ below.
Proof.
  split; [exact linkedImage_run|].
  apply (own_fragments_before_descendants linkedImage ∅ _ _ eq_refl).
  - apply not_elem_of_empty.
  - exact linkedImage_run.
Defined.

Lemma text_is_first_fragment_witness :
  extractContentRecursively blankText ∅ = Ok ([""], seenAfter blankText) ∧
  ∃ rest, [""] = trim "   " :: rest.
Proof.
  split; [exact blankText_run|].
  apply (text_is_first_fragment [("text", VStr "   ")] "   " ∅ [""]
           (seenAfter blankText) eq_refl).
  - discriminate.
  - apply not_elem_of_empty.
  - apply not_elem_of_empty.
  - exact blankText_run.
Defined.

Lemma at_most_three_fragments_per_object_witness :
  extractContentRecursively linkedImage ∅ =
    Ok (["Hi"; "Hi: https://x.test"; "Image: https://x.test/img.png"],
        seenAfterLinkedImage) ∧
  (List.length ["Hi"; "Hi: https://x.test"; "Image: https://x.test/img.png"]
   ≤ 3 * objects linkedImage)%nat.
Proof.
  split; [exact linkedImage_run|].
  exact (at_most_three_fragments_per_object linkedImage ∅ _ _
           linkedImage_run).
Defined.

Lemma documentBody_pushed :
  onResponse documentsApi (Some documentBody) (Some loadedPage) =
    Pushed (recordOf (onResponse documentsApi (Some documentBody)
                        (Some loadedPage))).
Proof. vm_compute. reflexivity. Qed.

Lemma pushed_record_complete_witness :
  onResponse documentsApi (Some documentBody) (Some loadedPage) =
    Pushed (recordOf (onResponse documentsApi (Some documentBody)
                        (Some loadedPage))) ∧
  ∃ title pageUrl text,
    recordOf (onResponse documentsApi (Some documentBody) (Some loadedPage)) =
      VObj [("title", title); ("url", VStr pageUrl); ("text", VStr text)] ∧
    truthy title = true ∧ pageUrl ≠ "" ∧ text ≠ "".
Proof.
  split; [exact documentBody_pushed|].
  exact (proj2 (proj2 (pushed_record_complete _ _ _ _ documentBody_pushed))).
Defined.

Lemma document_without_toString_pushed_witness :
  includes documentsApi "documents.info" = true ∧
  ∃ record,
    onResponse documentsApi (Some documentBody) None = Pushed record.
Proof.
  split; [reflexivity|].
  apply (document_without_toString_pushed documentsApi documentBody
           (getProp documentBody "data")
           (getProp (getProp documentBody "data") "document") None);
    reflexivity.
Defined.
